(** * OceanBase console tools: result presentation and session control

    A shallow embedding of the two console programs of the repository,
    [ob_admin_cli.py] (paged tables, CSV export, the menu file, custom
    statements, confirmation of risky statements) and [ob_gemini_v1.py]
    (connection details, order of the menu, horizontal or vertical layout),
    and the properties of their presentation logic.

    Python values are modelled as follows.
    - [int] is [Z]; [//] is [Z.div] (both round towards minus infinity),
      [min] and [max] are [Z.min] and [Z.max].
    - [str] is a list of Unicode code points ([N]); [len] is [length].
    - a row of [ob_admin_cli.py] is a [dict] in insertion order: an
      association list; a row of [ob_gemini_v1.py] is a tuple: a list.
    - [print], [input], the database driver, the formatting backend, the clock
      and the file system are effects on an explicit [world], threaded through
      a state-and-exception monad. *)

From Stdlib Require Import String Ascii.
From Stdlib Require Import List ZArith NArith Lia Bool.
From Stdlib Require Import Permutation Sorted.
Import ListNotations.
Open Scope Z_scope.

(** ** Strings *)

Definition char := N.
Definition pystr := list char.

(** An ASCII literal as a [str]. *)
Definition lit (s : string) : pystr :=
  map N_of_ascii (list_ascii_of_string s).
Arguments lit s%_string.

Definition LF : char := 10%N.
Definition CR : char := 13%N.
Definition TAB : char := 9%N.
Definition SPACE : char := 32%N.
Definition COMMA : char := 44%N.
Definition DQUOTE : char := 34%N.
Definition SQUOTE : char := 39%N.
Definition BACKSLASH : char := 92%N.
(** U+2026, the one-character marker appended by [clean]. *)
Definition ELLIPSIS : char := 8230%N.
(** U+FEFF, written first by the [utf-8-sig] codec. *)
Definition BOM : char := 65279%N.

Definition len {A} (l : list A) : Z := Z.of_nat (length l).

Definition between (lo hi c : N) : bool := ((lo <=? c) && (c <=? hi))%N.

(** [str.isspace] on one code point; [str.split()] and [str.strip()] use it. *)
Definition isspace (c : char) : bool :=
  between 9 13 c || between 28 32 c || (c =? 133)%N || (c =? 160)%N
  || (c =? 5760)%N || between 8192 8202 c || (c =? 8232)%N || (c =? 8233)%N
  || (c =? 8239)%N || (c =? 8287)%N || (c =? 12288)%N.

Definition str_eqb (a b : pystr) : bool :=
  if list_eq_dec N.eq_dec a b then true else false.

(** [s.replace(old, new)] for one-character [old] and [new]. *)
Definition replace1 (old new : char) (s : pystr) : pystr :=
  map (fun c => if (c =? old)%N then new else c) s.

(** [s.split()]: the maximal runs of non-space characters; [cur] is the run
    being read, last character first. *)
Fixpoint split_from (cur : pystr) (s : pystr) : list pystr :=
  match s with
  | [] => match cur with [] => [] | _ => [rev cur] end
  | c :: s' =>
      if isspace c
      then match cur with
           | [] => split_from [] s'
           | _ => rev cur :: split_from [] s'
           end
      else split_from (c :: cur) s'
  end.

Definition split (s : pystr) : list pystr := split_from [] s.

(** [sep.join(parts)]. *)
Fixpoint join (sep : pystr) (parts : list pystr) : pystr :=
  match parts with
  | [] => []
  | [p] => p
  | p :: rest => p ++ sep ++ join sep rest
  end.

Fixpoint lstrip (s : pystr) : pystr :=
  match s with
  | c :: s' => if isspace c then lstrip s' else s
  | [] => []
  end.

(** [s.strip()]. *)
Definition strip (s : pystr) : pystr := rev (lstrip (rev (lstrip s))).

(** [str.lower] on one code point.  The capital ASCII letters, and the two
    other code points whose lower case contains an ASCII letter (U+0130 and
    the Kelvin sign U+212A), are mapped as Python maps them; the remaining
    code points, whose lower case is not ASCII, are kept: every comparison the
    programs make on a lowered string is against ASCII text. *)
Definition lower_char (c : char) : pystr :=
  if between 65 90 c then [(c + 32)%N]
  else if (c =? 8490)%N then [107%N]
  else if (c =? 304)%N then [105%N; 775%N]
  else [c].

Definition lower (s : pystr) : pystr := flat_map lower_char s.

Fixpoint starts_with (p s : pystr) : bool :=
  match p, s with
  | [], _ => true
  | a :: p', b :: s' => (a =? b)%N && starts_with p' s'
  | _ :: _, [] => false
  end.

(** [p in s] on strings. *)
Fixpoint contains (p s : pystr) : bool :=
  starts_with p s || match s with [] => false | _ :: s' => contains p s' end.

(** [s[:k]] with Python's reading of a negative bound. *)
Definition slice_to {A} (k : Z) (s : list A) : list A :=
  let k' := if k <? 0 then Z.max 0 (k + len s) else k in
  firstn (Z.to_nat k') s.

(** [s[a:b]] for lists, same convention. *)
Definition slice {A} (a b : Z) (s : list A) : list A :=
  let norm i := if i <? 0 then Z.max 0 (i + len s) else Z.min i (len s) in
  firstn (Z.to_nat (norm b - norm a)) (skipn (Z.to_nat (norm a)) s).

(** [s.ljust(w)] and [s.rjust(w)]. *)
Definition ljust (w : Z) (s : pystr) : pystr :=
  s ++ repeat SPACE (Z.to_nat (w - len s)).
Definition rjust (w : Z) (s : pystr) : pystr :=
  repeat SPACE (Z.to_nat (w - len s)) ++ s.

(** Decimal digits of a natural number, most significant first. *)
Fixpoint digits_from (fuel : nat) (n : N) (acc : pystr) : pystr :=
  let acc' := (48 + n mod 10)%N :: acc in
  match fuel with
  | O => acc'
  | S f => if (n / 10 =? 0)%N then acc' else digits_from f (n / 10)%N acc'
  end.

Definition str_N (n : N) : pystr := digits_from (N.to_nat (N.log2 n)) n [].

(** [str(z)] for an [int]. *)
Definition str_int (z : Z) : pystr :=
  if z <? 0 then 45%N :: str_N (Z.to_N (- z)) else str_N (Z.to_N z).

Definition hexdigit (d : N) : char := if (d <? 10)%N then (48 + d)%N else (87 + d)%N.

(** ** Cells *)

(** The scalar values the drivers hand out that the programs tell apart:
    [None], [int], [str] and [bytes].  (Real and temporal values take the same
    paths as [int]: they are not [str], and are printed through [str()].) *)
Inductive cell :=
| CNone
| CInt (z : Z)
| CStr (s : pystr)
| CBytes (b : list N).

(** [repr] of a [bytes] value, which is also its [str]: the quote is the
    single quote unless the value holds a single and no double quote. *)
Definition bytes_quote (b : list N) : char :=
  if existsb (N.eqb SQUOTE) b && negb (existsb (N.eqb DQUOTE) b) then DQUOTE else SQUOTE.

Definition repr_byte (q : char) (c : N) : pystr :=
  if (c =? q)%N || (c =? BACKSLASH)%N then [BACKSLASH; c]
  else if (c =? TAB)%N then [BACKSLASH; 116%N]
  else if (c =? LF)%N then [BACKSLASH; 110%N]
  else if (c =? CR)%N then [BACKSLASH; 114%N]
  else if (c <? 32)%N || (127 <=? c)%N
       then [BACKSLASH; 120%N; hexdigit (c / 16 mod 16); hexdigit (c mod 16)]
  else [c].

Definition repr_bytes (b : list N) : pystr :=
  let q := bytes_quote b in
  98%N :: q :: flat_map (repr_byte q) b ++ [q].

(** [str(v)]. *)
Definition py_str (v : cell) : pystr :=
  match v with
  | CNone => lit "None"
  | CInt z => str_int z
  | CStr s => s
  | CBytes b => repr_bytes b
  end.

(** [isinstance(v, str)]. *)
Definition is_str (v : cell) : bool :=
  match v with CStr _ => true | _ => false end.

(** ** Column width ([adaptive_cell_width], and the width of [print_horizontal]) *)

(** [term] is the column count of the terminal, [None] when asking raises. *)
Definition adaptive_cell_width (term : option Z) (headers : list pystr)
  (min_w max_w : Z) : Z :=
  let cols := match term with Some c => c | None => 120 end in
  let n := Z.max 1 (len headers) in
  let usable := Z.max 40 (cols - 16) in
  Z.max min_w (Z.min max_w (usable / n)).

(** The defaults of the signature. *)
Definition MIN_W : Z := 24.
Definition MAX_W : Z := 80.

(** [max_col_width] of [print_horizontal]; the caller has a non-zero
    [num_columns] (the division raises otherwise, see [print_horizontal]). *)
Definition max_col_width (term : option Z) (num_columns : Z) : Z :=
  let terminal_width := match term with Some c => c | None => 80 end in
  let available_width := terminal_width - num_columns * 3 - 1 in
  Z.min 40 (Z.max 10 (available_width / num_columns)).

(** [[max_col_width] * num_columns]. *)
Definition max_col_widths_list (term : option Z) (num_columns : Z) : list Z :=
  repeat (max_col_width term num_columns) (Z.to_nat num_columns).

(** ** The cell sanitizer ([clean], local to [print_table]) *)

Definition is_surrogate (c : char) : bool := between 55296 57343 c.

(** [s.encode("utf-8", errors="strict")] succeeds. *)
Definition encodable (s : pystr) : bool := negb (existsb is_surrogate s).

(** One code point through [encode(errors="backslashreplace")] and back. *)
Definition backslashreplace (c : char) : pystr :=
  if is_surrogate c
  then [BACKSLASH; 117%N; hexdigit (c / 4096 mod 16); hexdigit (c / 256 mod 16);
        hexdigit (c / 16 mod 16); hexdigit (c mod 16)]
  else [c].

(** Lines 85 to 91: the text before the length test. *)
Definition clean_text (s : pystr) : pystr :=
  let s := replace1 TAB SPACE (replace1 LF SPACE (replace1 CR SPACE s)) in
  let s := join [SPACE] (split s) in
  if encodable s then s else flat_map backslashreplace s.

(** Lines 92 and 93. *)
Definition truncate (max_width : Z) (s : pystr) : pystr :=
  if max_width <? len s then slice_to (max_width - 1) s ++ [ELLIPSIS] else s.

Definition clean (max_width : Z) (val : cell) : pystr :=
  match val with
  | CNone => []
  | _ => truncate max_width (clean_text (py_str val))
  end.

(** The sanitized text when no bound cuts it: [clean] without its last step. *)
Definition sanitized (val : cell) : pystr :=
  match val with
  | CNone => []
  | _ => clean_text (py_str val)
  end.

(** ** The layout decision (lines 213 to 228 of [ob_gemini_v1.py]) *)

Inductive layout := Horizontal | Vertical.

Definition MAX_HORIZONTAL_COLS : Z := 10.

(** [isinstance(cell, str) and '\n' in cell]. *)
Definition newline_cell (c : cell) : bool :=
  match c with
  | CStr s => contains [LF] s
  | _ => false
  end.

(** [any(... for cell in row)], with the cells the generator has produced. *)
Fixpoint any_newline (row : list cell) : bool * list cell :=
  match row with
  | [] => (false, [])
  | c :: row' =>
      if newline_cell c then (true, [c])
      else let (found, seen) := any_newline row' in (found, c :: seen)
  end.

(** The [for row in results] loop with its [break], with the cells read. *)
Fixpoint scan_rows (results : list (list cell)) : bool * list cell :=
  match results with
  | [] => (false, [])
  | row :: rest =>
      let (found, seen) := any_newline row in
      if found then (true, seen)
      else let (found', seen') := scan_rows rest in (found', seen ++ seen')
  end.

Record decision := {
  is_too_wide : bool;
  has_newlines : bool;
  cells_read : list cell
}.

Definition decide (headers : list pystr) (results : list (list cell)) : decision :=
  let too_wide := MAX_HORIZONTAL_COLS <? len headers in
  let (newlines, seen) := if negb too_wide then scan_rows results else (false, []) in
  {| is_too_wide := too_wide; has_newlines := newlines; cells_read := seen |}.

Definition layout_of (d : decision) : layout :=
  if is_too_wide d || has_newlines d then Vertical else Horizontal.

(** ** Rows and result sets *)

(** A row of [ob_admin_cli.py]: a [dict] from column name to value, in
    insertion order. *)
Definition row := list (pystr * cell).

(** [r.get(k)]: [None] when the key is absent. *)
Fixpoint dict_get (k : pystr) (r : row) : cell :=
  match r with
  | [] => CNone
  | (k', v) :: r' => if str_eqb k k' then v else dict_get k r'
  end.

(** [list(r.keys())]. *)
Definition keys (r : row) : list pystr := map fst r.

(** ** The world: console, database, files *)

Inductive exn :=
| EOFError
| InterfaceError
| DriverError (code : Z)
| ZeroDivisionError
| IndexError
| ValueError
| OSError
| UnicodeEncodeError
| RenderError (code : Z).

Definition exn_eqb (a b : exn) : bool :=
  match a, b with
  | EOFError, EOFError | InterfaceError, InterfaceError
  | ZeroDivisionError, ZeroDivisionError | IndexError, IndexError
  | ValueError, ValueError | OSError, OSError
  | UnicodeEncodeError, UnicodeEncodeError => true
  | DriverError x, DriverError y | RenderError x, RenderError y => x =? y
  | _, _ => false
  end.

(** The fixed messages of the two programs, by what they say. *)
Inductive notice :=
| NoResult                       (* "(no result)" *)
| NothingToSave
| Saved (path : pystr)
| SaveFailed (e : exn)
| Range (first last total : Z)   (* "first - last / total" *)
| PageMenu
| LastPage
| FirstPage
| InvalidCommand
| Elapsed (sql_length : Z)
| Cancelled
| ExecFailed (e : exn)
| SqlEmpty
| Executing (sql : pystr)
| EmptyResult
| TooWide
| HasNewlines
| Affected (rowcount : Z)
| SqlError (e : exn)
| ProgramError (e : exn)
| RenderFailed (e : exn)
| Degrading.

Inductive prompt :=
| AskCommand
| AskCsvName (default : pystr)
| AskConfirm                     (* "... (yes/NO): " *)
| AskContinue.

(** What reaches the terminal. *)
Inductive out :=
| Text (s : pystr)               (* [print(s)] of computed text *)
| Note (n : notice)              (* [print] of a fixed message *)
| Ask (p : prompt)               (* the prompt of an [input] *)
| ClearScreen.

(** What the server answers to [cur.execute] and then [cur.fetchall]
    (driver of [ob_admin_cli.py]). *)
Inductive fetched :=
| Fetched (rows : list row)
| FetchRaises (e : exn).

Inductive reply :=
| ExecuteRaises (e : exn)
| Executed (rowcount : Z) (f : fetched).

(** The cursor after [cursor.execute] (driver of [ob_gemini_v1.py]). *)
Inductive greply :=
| GExecuteRaises (e : exn)
| GExecuted (description : option (list pystr)) (results : list (list cell))
    (rowcount : Z).

(** The options of a [tabulate] call. *)
Record tab_opts := {
  tablefmt : pystr;
  showindex : bool;
  maxcolwidths : option (list Z)
}.

(** The collaborators the programs do not define. *)
Record env := {
  (** [get_terminal_size().columns]; [None] when it raises *)
  terminal_columns : option Z;
  (** the import of [tabulate] succeeded *)
  HAVE_TABULATE : bool;
  (** [tabulate(rows, headers=..., ...)]: the text, or the error it raises *)
  tabulate : list (list cell) -> list pystr -> tab_opts -> pystr + exn;
  (** the answer to a statement, given the statements already executed *)
  server : list pystr -> pystr -> reply;
  gserver : list pystr -> pystr -> greply;
  (** [time.strftime("ob_query_%Y%m%d_%H%M%S.csv")] *)
  default_name : pystr;
  (** [open(path, "w")] succeeds *)
  can_open : pystr -> bool
}.

Record world := {
  stdin : list pystr;               (* the lines still to be read *)
  stdout : list out;                (* oldest first *)
  statements : list pystr;          (* handed to the server, oldest first *)
  files : list (pystr * pystr)      (* path and decoded content, newest first *)
}.

Inductive result (A : Type) :=
| Ok (a : A) (w : world)
| Raise (e : exn) (w : world)
| OutOfFuel.
Arguments Ok {A} a w.
Arguments Raise {A} e w.
Arguments OutOfFuel {A}.

Definition M (A : Type) := world -> result A.

Definition ret {A} (a : A) : M A := fun w => Ok a w.

Definition bind {A B} (m : M A) (k : A -> M B) : M B :=
  fun w => match m w with
           | Ok a w' => k a w'
           | Raise e w' => Raise e w'
           | OutOfFuel => OutOfFuel
           end.

Notation "x <- m ;; k" := (bind m (fun x => k))
  (at level 61, m at next level, right associativity).
Notation "m ;; k" := (bind m (fun _ => k))
  (at level 61, right associativity).

Definition raise {A} (e : exn) : M A := fun w => Raise e w.

(** [try: m  except <those of catches> as e: handler e]. *)
Definition try_except {A} (m : M A) (catches : exn -> bool) (handler : exn -> M A) : M A :=
  fun w => match m w with
           | Raise e w' => if catches e then handler e w' else Raise e w'
           | r => r
           end.

(** [except Exception]. *)
Definition any_exception (e : exn) : bool := true.

Definition emit (o : out) : M unit :=
  fun w => Ok tt {| stdin := stdin w; stdout := stdout w ++ [o];
                    statements := statements w; files := files w |}.

Definition print (s : pystr) : M unit := emit (Text s).
Definition say (n : notice) : M unit := emit (Note n).
Definition clear_screen : M unit := emit ClearScreen.

(** [input(prompt)]: the prompt is written, a line is read; at the end of the
    input [EOFError] is raised. *)
Definition input (p : prompt) : M pystr :=
  emit (Ask p) ;;
  fun w => match stdin w with
           | [] => Raise EOFError w
           | l :: rest => Ok l {| stdin := rest; stdout := stdout w;
                                  statements := statements w; files := files w |}
           end.

Fixpoint for_each {A} (l : list A) (f : A -> M unit) : M unit :=
  match l with
  | [] => ret tt
  | x :: l' => f x ;; for_each l' f
  end.

Definition pause : M unit :=
  try_except (input AskContinue ;; ret tt) (exn_eqb EOFError) (fun _ => ret tt).

(** [s if s else default]. *)
Definition or_default (s default : pystr) : pystr :=
  match s with [] => default | _ => s end.

Definition prompt_with_default (p : prompt) (default : pystr) : M pystr :=
  line <- input p ;;
  let s := strip line in
  ret (or_default s default).

(** ** The CSV dialect of [csv.DictWriter] (excel: comma, double quote,
    minimal quoting, doubled quotes, records ended by CR LF) *)

Definition csv_special (c : char) : bool :=
  (c =? COMMA)%N || (c =? DQUOTE)%N || (c =? CR)%N || (c =? LF)%N.

Definition needs_quote (f : pystr) : bool := existsb csv_special f.

Definition double_quotes (f : pystr) : pystr :=
  flat_map (fun c => if (c =? DQUOTE)%N then [DQUOTE; DQUOTE] else [c]) f.

Definition csv_field (f : pystr) : pystr :=
  if needs_quote f then DQUOTE :: double_quotes f ++ [DQUOTE] else f.

(** One record; a lone empty field is written as two quotes. *)
Definition csv_record (fields : list pystr) : pystr :=
  let body := join [COMMA] (map csv_field fields) in
  match fields, body with
  | _ :: _, [] => [DQUOTE; DQUOTE; CR; LF]
  | _, _ => body ++ [CR; LF]
  end.

(** The text the writer makes of a value: [None] is empty, a [str] is itself,
    anything else goes through [str()]. *)
Definition csv_text (v : cell) : pystr :=
  match v with
  | CNone => []
  | _ => py_str v
  end.

(** [{k: "" if v is None else v for k, v in r.items()}]. *)
Definition blank_none (r : row) : row :=
  map (fun kv => (fst kv, match snd kv with CNone => CStr [] | v => v end)) r.

(** ** [ob_admin_cli.py] *)

Section Admin.

Variable E : env.

Definition set_file (path content : pystr) : M unit :=
  fun w => Ok tt {| stdin := stdin w; stdout := stdout w;
                    statements := statements w; files := (path, content) :: files w |}.

Fixpoint file_content (path : pystr) (fs : list (pystr * pystr)) : option pystr :=
  match fs with
  | [] => None
  | (p, c) :: fs' => if str_eqb path p then Some c else file_content path fs'
  end.

(** [open(path, "w", newline="", encoding="utf-8-sig")]: the file is emptied. *)
Definition open_w (path : pystr) : M unit :=
  if can_open E path then set_file path [] else raise OSError.

(** [f.write(s)]: the text is encoded when written; the codec puts its
    marker before the first text. *)
Definition fwrite (path : pystr) (s : pystr) : M unit :=
  fun w =>
    if encodable s
    then match file_content path (files w) with
         | Some [] | None => set_file path (BOM :: s) w
         | Some c => set_file path (c ++ s) w
         end
    else Raise UnicodeEncodeError w.

(** [DictWriter.writerow]: a key outside [fieldnames] raises [ValueError];
    a missing key is written as the empty text. *)
Definition writerow (path : pystr) (fieldnames : list pystr) (rowdict : row) : M unit :=
  if forallb (fun kv => existsb (str_eqb (fst kv)) fieldnames) rowdict
  then fwrite path (csv_record (map (fun k => csv_text (dict_get k rowdict)) fieldnames))
  else raise ValueError.

(** [DictWriter.writeheader]. *)
Definition writeheader (path : pystr) (fieldnames : list pystr) : M unit :=
  writerow path fieldnames (map (fun k => (k, CStr k)) fieldnames).

Definition save_csv (rows : list row) : M unit :=
  match rows with
  | [] => say NothingToSave
  | first :: _ =>
      path <- prompt_with_default (AskCsvName (default_name E)) (default_name E) ;;
      let headers := keys first in
      try_except
        (open_w path ;;
         writeheader path headers ;;
         for_each rows (fun r => writerow path headers (blank_none r)) ;;
         say (Saved path))
        any_exception
        (fun e => say (SaveFailed e))
  end.

(** The text fallback of [print_table]. *)
Definition col_w (headers : list pystr) (rows_ll : list (list pystr)) : list Z :=
  map (fun i => fold_left Z.max (map (fun r => len (nth i r [])) rows_ll)
                                (len (nth i headers [])))
      (seq 0 (length headers)).

Definition rule (widths : list Z) : pystr :=
  lit "+" ++ join (lit "+") (map (fun w => repeat 45%N (Z.to_nat (w + 2))) widths) ++ lit "+".

Definition text_line (widths : list Z) (cells : list pystr) : pystr :=
  lit "| "
  ++ join (lit " | ") (map (fun i => ljust (nth i widths 0) (nth i cells []))
                           (seq 0 (length widths)))
  ++ lit " |".

(** The matrix handed to the table: every cell through [clean]. *)
Definition rows_ll (max_width : Z) (headers : list pystr) (rows : list row) : list (list pystr) :=
  map (fun r => map (fun h => clean max_width (dict_get h r)) headers) rows.

Definition print_table (rows : list row) (max_width : option Z) : M unit :=
  match rows with
  | [] => say NoResult
  | first :: _ =>
      let headers := keys first in
      let max_width := match max_width with
                       | Some m => m
                       | None => adaptive_cell_width (terminal_columns E) headers MIN_W MAX_W
                       end in
      let ll := rows_ll max_width headers rows in
      if HAVE_TABULATE E
      then match tabulate E (map (map CStr) ll) headers
                   {| tablefmt := lit "fancy_grid"; showindex := true; maxcolwidths := None |} with
           | inl text => print text
           | inr e => raise e
           end
      else
        let widths := col_w headers ll in
        print (rule widths) ;;
        print (text_line widths headers) ;;
        print (rule widths) ;;
        for_each ll (fun r => print (text_line widths r)) ;;
        print (rule widths)
  end.

(** One turn of the [while True] of [paginate], in its two halves.  Lines 141
    to 146: the page is shown. *)
Definition show_page (rows : list row) (page_size page : Z) : M unit :=
  let total := len rows in
  clear_screen ;;
  let start := page * page_size in
  let stop := Z.min (start + page_size) total in
  say (Range (start + 1) stop total) ;;
  print_table (slice start stop rows) None ;;
  say PageMenu.

(** Lines 148 to 163: the command is obeyed.  [None] is the [return], and
    [Some page] the page of the next turn. *)
Definition obey (rows : list row) (page_size page : Z) (cmd : pystr) : M (option Z) :=
  let total := len rows in
  let start := page * page_size in
  let stop := Z.min (start + page_size) total in
  if str_eqb cmd (lit "n") then
    if total <=? stop then say LastPage ;; ret (Some page)
    else ret (Some (page + 1))
  else if str_eqb cmd (lit "p") then
    if page =? 0 then say FirstPage ;; ret (Some page)
    else ret (Some (page - 1))
  else if str_eqb cmd (lit "s") then
    save_csv rows ;; ret (Some page)
  else if str_eqb cmd (lit "q") then
    ret None
  else
    say InvalidCommand ;; ret (Some page).

Definition paginate_turn (rows : list row) (page_size page : Z) : M (option Z) :=
  show_page rows page_size page ;;
  line <- input AskCommand ;;
  obey rows page_size page (lower (strip line)).

Fixpoint paginate_loop (fuel : nat) (rows : list row) (page_size page : Z) : M unit :=
  match fuel with
  | O => fun _ => OutOfFuel
  | S fuel' =>
      next <- paginate_turn rows page_size page ;;
      match next with
      | None => ret tt
      | Some page' => paginate_loop fuel' rows page_size page'
      end
  end.

(** Every turn reads a line, so one turn more than there are lines is
    enough fuel. *)
Definition paginate (rows : list row) (page_size : Z) : M unit :=
  match rows with
  | [] => say NoResult
  | _ => fun w => paginate_loop (S (length (stdin w))) rows page_size 0 w
  end.

(** [cur.execute(sql)]: the statement reaches the server. *)
Definition execute (sql : pystr) : M (Z * fetched) :=
  fun w =>
    let w' := {| stdin := stdin w; stdout := stdout w;
                 statements := statements w ++ [sql]; files := files w |} in
    match server E (statements w) sql with
    | ExecuteRaises e => Raise e w'
    | Executed rowcount f => Ok (rowcount, f) w'
    end.

Definition fetchall (cur : Z * fetched) : M (list row) :=
  match snd cur with
  | Fetched rows => ret rows
  | FetchRaises e => raise e
  end.

Definition run_query (sql : pystr) : M (list row) :=
  cur <- execute sql ;;
  rows <- try_except (fetchall cur) (exn_eqb InterfaceError)
            (fun _ => ret [[(lit "affected_rows", CInt (fst cur))]]) ;;
  say (Elapsed (len sql)) ;;
  ret rows.

Definition DANGER : list pystr :=
  [lit " drop "; lit " truncate "; lit " delete "; lit " alter ";
   lit " shutdown "; lit " kill "].

(** Lines 384 to 386: the test of the confirmation. *)
Definition risky (sql : pystr) : bool :=
  let low := lit " " ++ lower sql ++ lit " " in
  existsb (fun k => contains k low) DANGER.

(** Lines 383 to 397 of [main]: one statement, from the test of the
    confirmation to the end of the turn of the menu loop.  [Ok] is the return
    to the top of the menu loop. *)
Definition dispatch (sql : pystr) : M unit :=
  go <- (if risky sql
         then ok <- input AskConfirm ;;
              if str_eqb (lower (strip ok)) (lit "yes") then ret true
              else say Cancelled ;; ret false
         else ret true) ;;
  if go : bool
  then try_except (rows <- run_query sql ;; paginate rows 20)
         any_exception
         (fun e => say (ExecFailed e) ;; pause)
  else ret tt.

End Admin.

(** ** [ob_gemini_v1.py] *)

Section Gemini.

Variable E : env.

Definition banner (i : Z) : pystr :=
  lit "***************************[ Row " ++ str_int (i + 1)
  ++ lit " ]***************************".

Definition rows_returned (n : Z) : pystr :=
  [LF] ++ lit "(" ++ str_int n ++ lit " row(s) returned)" ++ [LF].

(** [max(len(str(h)) for h in headers)], 0 on the [ValueError] of no header. *)
Definition max_header_len (headers : list pystr) : Z :=
  fold_right Z.max 0 (map len headers).

(** The inner loop of [print_vertical]: [row[j]] raises [IndexError] past the
    end of the row. *)
Fixpoint print_fields (width : Z) (headers : list pystr) (j : nat) (r : list cell) : M unit :=
  match headers with
  | [] => ret tt
  | header :: rest =>
      match nth_error r j with
      | Some v =>
          print (rjust width header ++ lit " : " ++ py_str v) ;;
          print_fields width rest (S j) r
      | None => raise IndexError
      end
  end.

Fixpoint print_records (headers : list pystr) (i : Z) (results : list (list cell)) : M unit :=
  match results with
  | [] => ret tt
  | r :: rest =>
      print (banner i) ;;
      print_fields (max_header_len headers) headers 0 r ;;
      print_records headers (i + 1) rest
  end.

Definition print_vertical (results : list (list cell)) (headers : list pystr) : M unit :=
  print [] ;;
  print_records headers 0 results ;;
  print (rows_returned (len results)).

(** Step 1 of [print_horizontal]: [str] and [bytes] cells lose their line
    feeds, carriage returns and tabs; the other cells are kept. *)
Definition cleaned_item (item : cell) : cell :=
  match item with
  | CStr _ | CBytes _ =>
      CStr (replace1 TAB SPACE (replace1 CR SPACE (replace1 LF SPACE (py_str item))))
  | _ => item
  end.

Definition cleaned_results (results : list (list cell)) : list (list cell) :=
  map (map cleaned_item) results.

Definition print_horizontal (results : list (list cell)) (headers : list pystr) : M unit :=
  let cleaned := cleaned_results results in
  let num_columns := len headers in
  if num_columns =? 0 then raise ZeroDivisionError
  else
    let widths := max_col_widths_list (terminal_columns E) num_columns in
    match tabulate E cleaned headers
            {| tablefmt := lit "grid"; showindex := false; maxcolwidths := Some widths |} with
    | inl text =>
        print text ;;
        print (rows_returned (len results))
    | inr e =>
        say (RenderFailed e) ;;
        say Degrading ;;
        print_vertical results headers
    end.

(** [cursor.execute(sql_query)]. *)
Definition gexecute (sql : pystr) : M (option (list pystr) * list (list cell) * Z) :=
  fun w =>
    let w' := {| stdin := stdin w; stdout := stdout w;
                 statements := statements w ++ [sql]; files := files w |} in
    match gserver E (statements w) sql with
    | GExecuteRaises e => Raise e w'
    | GExecuted description results rowcount => Ok (description, results, rowcount) w'
    end.

(** [mysql.connector.Error] and its subclasses. *)
Definition is_driver_error (e : exn) : bool :=
  match e with
  | InterfaceError | DriverError _ => true
  | _ => false
  end.

(** Lines 228 to 236: the routing on a decision already taken. *)
Definition render (d : decision) (results : list (list cell)) (headers : list pystr) : M unit :=
  if is_too_wide d || has_newlines d
  then (if is_too_wide d then say TooWide else ret tt) ;;
       (if has_newlines d then say HasNewlines else ret tt) ;;
       print_vertical results headers
  else print_horizontal results headers.

Definition execute_and_print_query (sql_query : pystr) : M unit :=
  match strip sql_query with
  | [] => say SqlEmpty
  | _ =>
      try_except
        (say (Executing sql_query) ;;
         cur <- gexecute sql_query ;;
         let '(description, results, rowcount) := cur in
         match description with
         | Some (h :: hs) =>
             match results with
             | [] => say EmptyResult
             | _ => render (decide (h :: hs) results) results (h :: hs)
             end
         | _ => say (Affected rowcount)
         end)
        any_exception
        (fun e => say (if is_driver_error e then SqlError e else ProgramError e))
  end.

End Gemini.

(** ** The readings of the specification that the properties compare with *)

(** A letter, a digit or the underscore: what a word is made of. *)
Definition word_char (c : char) : bool :=
  between 48 57 c || between 65 90 c || between 97 122 c || (c =? 95)%N.

(** [k] occurs in [s] with no word character right before or right after it;
    [free] says that the position is not preceded by a word character. *)
Fixpoint whole_word_from (free : bool) (k s : pystr) : bool :=
  match s with
  | [] => false
  | c :: s' =>
      (free && starts_with k s
       && match skipn (length k) s with
          | [] => true
          | d :: _ => negb (word_char d)
          end)
      || whole_word_from (negb (word_char c)) k s'
  end.

Definition destructive_keywords : list pystr :=
  [lit "drop"; lit "truncate"; lit "delete"; lit "alter"; lit "shutdown"; lit "kill"].

(** The statement contains a destructive keyword as a whole word, whatever
    the case of its letters. *)
Definition names_destructive (sql : pystr) : bool :=
  existsb (fun k => whole_word_from true k (lower sql)) destructive_keywords.

(** Reading a flat file back.  The repository only writes; the reader here
    is the one that goes with the writer, the reader of Python's [csv] module
    for the same dialect (not strict): a field starts quoted or plain, a
    doubled quote inside quotes is one quote, a record ends at CR, LF or
    CR LF outside quotes, and an empty line is a record without fields. *)
Inductive reader_state :=
| StartRecord
| StartField
| InField
| InQuoted
| QuoteInQuoted
| AfterCR.

(** [field] is the field being read, last character first; [fields] the
    fields of the record being read, last field first. *)
Fixpoint csv_read (st : reader_state) (field : pystr) (fields : list pystr)
  (s : pystr) : list (list pystr) :=
  let save := rev (rev field :: fields) in
  match s with
  | [] =>
      match st with
      | StartRecord | AfterCR => []
      | _ => [save]
      end
  | c :: s' =>
      match st with
      | StartRecord | StartField | AfterCR =>
          if (c =? LF)%N then
            match st with
            | AfterCR => csv_read StartRecord [] [] s'
            | StartRecord => [] :: csv_read StartRecord [] [] s'
            | _ => save :: csv_read StartRecord [] [] s'
            end
          else if (c =? CR)%N then
            match st with
            | StartField => save :: csv_read AfterCR [] [] s'
            | _ => [] :: csv_read AfterCR [] [] s'
            end
          else if (c =? DQUOTE)%N then csv_read InQuoted [] fields s'
          else if (c =? COMMA)%N then csv_read StartField [] ([] :: fields) s'
          else csv_read InField [c] fields s'
      | InField =>
          if (c =? LF)%N then save :: csv_read StartRecord [] [] s'
          else if (c =? CR)%N then save :: csv_read AfterCR [] [] s'
          else if (c =? COMMA)%N then csv_read StartField [] (rev field :: fields) s'
          else csv_read InField (c :: field) fields s'
      | InQuoted =>
          if (c =? DQUOTE)%N then csv_read QuoteInQuoted field fields s'
          else csv_read InQuoted (c :: field) fields s'
      | QuoteInQuoted =>
          if (c =? DQUOTE)%N then csv_read InQuoted (c :: field) fields s'
          else if (c =? COMMA)%N then csv_read StartField [] (rev field :: fields) s'
          else if (c =? LF)%N then save :: csv_read StartRecord [] [] s'
          else if (c =? CR)%N then save :: csv_read AfterCR [] [] s'
          else csv_read InField (c :: field) fields s'
      end
  end.

(** The records of a file: the marker of the encoding is dropped first. *)
Definition csv_parse (content : pystr) : list (list pystr) :=
  match content with
  | c :: rest => if (c =? BOM)%N then csv_read StartRecord [] [] rest
                 else csv_read StartRecord [] [] content
  | [] => []
  end.

(** ** The vocabulary of the properties *)

Definition spaceless (w : pystr) : Prop := forall c, In c w -> isspace c = false.

(** A word: a non-empty run without white space. *)
Definition word (w : pystr) : Prop := w <> [] /\ spaceless w.

(** Tidy text: words joined by single spaces. *)
Definition tidy (s : pystr) : Prop :=
  exists ws, Forall word ws /\ s = join [SPACE] ws.

(** What a scan that stops at the first line feed has read of [cells]. *)
Definition read_until_newline (found : bool) (seen cells : list cell) : Prop :=
  if found
  then exists pre c post,
         cells = pre ++ c :: post
         /\ (forall c', In c' pre -> contains [LF] (py_str c') = false)
         /\ contains [LF] (py_str c) = true
         /\ seen = pre ++ [c]
  else seen = cells /\ forall c, In c cells -> contains [LF] (py_str c) = false.

(** A world with more output. *)
Definition with_output (w : world) (os : list out) : world :=
  {| stdin := stdin w; stdout := stdout w ++ os;
     statements := statements w; files := files w |}.

(** A sample of the collaborators, for the instances below: a terminal of 80
    columns, no [tabulate] installed, a server for which no statement has a
    result set, and a file system where every path can be written. *)
Definition sample_env : env :=
  {| terminal_columns := Some 80;
     HAVE_TABULATE := false;
     tabulate := fun _ _ _ => inr (RenderError 0);
     server := fun _ _ => Executed 1 (FetchRaises InterfaceError);
     gserver := fun _ _ => GExecuted None [] 0;
     default_name := lit "ob_query.csv";
     can_open := fun _ => true |}.

Definition sample_world (lines : list pystr) : world :=
  {| stdin := lines; stdout := []; statements := []; files := [] |}.

(** The states [paginate] goes through: from page [p0] in world [w0], any
    number of turns that do not leave the loop. *)
Inductive visited (E : env) (rows : list row) (page_size : Z) (p0 : Z) (w0 : world) :
  Z -> world -> Prop :=
| visited_first : visited E rows page_size p0 w0 p0 w0
| visited_turn (page : Z) (w : world) (page' : Z) (w' : world) :
    visited E rows page_size p0 w0 page w ->
    paginate_turn E rows page_size page w = Ok (Some page') w' ->
    visited E rows page_size p0 w0 page' w'.

Definition page_inv (total page_size page : Z) : Prop :=
  0 <= page /\ 0 <= page * page_size < total.

(** The reader is at the start of a field: of the first one or of a later
    one. *)
Definition at_field (st : reader_state) : Prop := st = StartRecord \/ st = StartField.

(** The text of a cell on export. *)
Definition exported (r : row) : list pystr := map (fun kv => csv_text (snd kv)) r.

(** The records of an export: the header names, then the rows. *)
Definition export_records (headers : list pystr) (rows : list row) : list (list pystr) :=
  headers :: map exported rows.

(** Two worlds that differ in their files only. *)
Definition same_console (w w' : world) : Prop :=
  stdin w' = stdin w /\ stdout w' = stdout w /\ statements w' = statements w.

(** Three rows of two columns, for the instances. *)
Definition sample_rows : list row :=
  [ [(lit "id", CInt 1); (lit "note", CNone)];
    [(lit "id", CInt 2); (lit "note", CStr (lit "a,b"))];
    [(lit "id", CInt 3); (lit "note", CStr (lit "say " ++ [DQUOTE] ++ lit "hi" ++ [DQUOTE; LF]))] ].

(** The lines of one record, and of the whole vertical view. *)
Definition field_line (width : Z) (hv : pystr * cell) : out :=
  Text (rjust width (fst hv) ++ lit " : " ++ py_str (snd hv)).

Fixpoint record_lines (headers : list pystr) (i : Z) (results : list (list cell)) : list out :=
  match results with
  | [] => []
  | r :: rest =>
      Text (banner i)
      :: map (field_line (max_header_len headers)) (combine headers r)
      ++ record_lines headers (i + 1) rest
  end.

Definition vertical_view (results : list (list cell)) (headers : list pystr) : list out :=
  Text [] :: record_lines headers 0 results ++ [Text (rows_returned (len results))].

(** A computation that does not depend on fuel. *)
Definition fuel_free {A} (m : M A) : Prop := forall w, m w <> OutOfFuel.

(** No [Ask AskConfirm] among the outputs. *)
Definition never_asked (os : list out) : bool :=
  forallb (fun o => match o with Ask AskConfirm => false | _ => true end) os.

(** A computation that needs no fuel and gives no line back to the input;
    [strictly] when a normal return has read at least one line. *)
Definition reads (strictly : bool) {A} (m : M A) : Prop :=
  forall w,
    match m w with
    | Ok _ w' =>
        if strictly then (length (stdin w') < length (stdin w))%nat
        else (length (stdin w') <= length (stdin w))%nat
    | Raise _ w' => (length (stdin w') <= length (stdin w))%nat
    | OutOfFuel => False
    end.

(** ** More of the two programs *)

(** The code points of a literal written in UTF-8, as the sources are. *)
Fixpoint utf8_decode (bytes : list N) : pystr :=
  match bytes with
  | [] => []
  | b :: rest =>
      if (b <? 128)%N then b :: utf8_decode rest
      else if (b <? 224)%N then
        match rest with
        | b1 :: r => ((b - 192) * 64 + (b1 - 128))%N :: utf8_decode r
        | _ => []
        end
      else if (b <? 240)%N then
        match rest with
        | b1 :: b2 :: r =>
            ((b - 224) * 4096 + (b1 - 128) * 64 + (b2 - 128))%N :: utf8_decode r
        | _ => []
        end
      else
        match rest with
        | b1 :: b2 :: b3 :: r =>
            ((b - 240) * 262144 + (b1 - 128) * 4096 + (b2 - 128) * 64 + (b3 - 128))%N
            :: utf8_decode r
        | _ => []
        end
  end.

Definition text (s : string) : pystr := utf8_decode (lit s).
Arguments text s%_string.

(** [input()] without a prompt, and [input(prompt)] with the text of a
    prompt this development gives no name to. *)
Definition readline : M pystr :=
  fun w => match stdin w with
           | [] => Raise EOFError w
           | l :: rest => Ok l {| stdin := rest; stdout := stdout w;
                                  statements := statements w; files := files w |}
           end.

Definition input_text (prompt_text : pystr) : M pystr :=
  emit (Text prompt_text) ;; readline.

(** [s.replace(old, new)] for a non-empty [old]: the occurrences are taken
    from the left and do not overlap; [skip] counts the characters of an
    occurrence still to pass. *)
Fixpoint replace_from (skip : nat) (old new s : pystr) : pystr :=
  match s with
  | [] => []
  | c :: s' =>
      match skip with
      | S k => replace_from k old new s'
      | O => if starts_with old s
             then new ++ replace_from (length old - 1) old new s'
             else c :: replace_from 0 old new s'
      end
  end.

Definition replace (old new s : pystr) : pystr := replace_from 0 old new s.

(** [line.strip().endswith(";")]. *)
Definition ends_statement (line : pystr) : bool :=
  match rev (strip line) with
  | c :: _ => (c =? 59)%N
  | [] => false
  end.

(** Lines 372 to 378 of [main]: the lines of a custom statement are read up
    to a blank line, which is dropped, or a line that ends in a semicolon,
    which is kept. *)
Fixpoint read_sql_lines (fuel : nat) (lines : list pystr) : M (list pystr) :=
  match fuel with
  | O => fun _ => OutOfFuel
  | S fuel' =>
      line <- readline ;;
      match strip line with
      | [] => ret lines
      | _ =>
          let lines := lines ++ [line] in
          if ends_statement line then ret lines else read_sql_lines fuel' lines
      end
  end.

(** Lines 369 to 381: [None] is the [continue] taken when nothing was
    typed. *)
Definition read_custom_sql : M (option pystr) :=
  print ([LF] ++ text "请输入要执行的 SQL（以分号 ; 结尾，空行直接执行）：") ;;
  lines <- (fun w => read_sql_lines (S (length (stdin w))) [] w) ;;
  let sql := strip (join [LF] lines) in
  match sql with
  | [] => print (text "未输入任何 SQL。") ;; ret None
  | _ => ret (Some sql)
  end.

(** *** The menu file of [ob_admin_cli.py] *)

















(** [enforce_utf8]: two statements on one cursor, any exception turned into
    a warning that shows it; [exn_text] is [str(e)]. *)
Definition enforce_utf8 (E : env) (exn_text : exn -> pystr) : M unit :=
  try_except
    (execute E (lit "SET NAMES utf8mb4 COLLATE utf8mb4_general_ci;") ;;
     execute E (lit "SET character_set_results = utf8mb4;") ;;
     ret tt)
    any_exception
    (fun e => print (text "[WARN] 设置 UTF-8 失败（可忽略）：" ++ exn_text e)).

(** *** The start of [ob_gemini_v1.py] *)


Section Connection.

(** [int(s)] on a string; [None] is its [ValueError]. *)
Variable py_int : pystr -> option Z.



(** *** The order of the menu (lines 269 to 273 of [show_main_menu]) *)

(** [sorted]: a stable sort; [x] goes before the first element that is not
    smaller. *)
Fixpoint insert_by {A} (leb : A -> A -> bool) (x : A) (l : list A) : list A :=
  match l with
  | [] => [x]
  | y :: l' => if leb x y then x :: l else y :: insert_by leb x l'
  end.

Definition sorted_by {A} (leb : A -> A -> bool) (l : list A) : list A :=
  fold_right (insert_by leb) [] l.

(** [a <= b] on strings: by code points, from the left. *)
Fixpoint str_leb (a b : pystr) : bool :=
  match a, b with
  | [], _ => true
  | _ :: _, [] => false
  | x :: a', y :: b' =>
      if (x <? y)%N then true else if (y <? x)%N then false else str_leb a' b'
  end.

Definition int_or_zero (k : pystr) : Z :=
  match py_int k with Some n => n | None => 0 end.

(** By number when every key is one, by string when [int] raises. *)
Definition sorted_keys (keys : list pystr) : list pystr :=
  if forallb (fun k => match py_int k with Some _ => true | None => false end) keys
  then sorted_by (fun a b => int_or_zero a <=? int_or_zero b) keys
  else sorted_by str_leb keys.

End Connection.

(** ** More vocabulary *)

(** A computation that only writes to the terminal: it reads no line, sends
    no statement, touches no file, and needs no fuel. *)
Definition only_prints {A} (m : M A) : Prop :=
  forall w,
    match m w with
    | Ok _ w' | Raise _ w' =>
        stdin w' = stdin w /\ statements w' = statements w /\ files w' = files w
        /\ exists os, stdout w' = stdout w ++ os
    | OutOfFuel => False
    end.

(** The lines of the text table of [print_table]. *)
Definition table_lines (headers : list pystr) (ll : list (list pystr)) : list pystr :=
  let widths := col_w headers ll in
  rule widths :: text_line widths headers :: rule widths
  :: map (text_line widths) ll ++ [rule widths].

(** A computation that sends nothing to the server. *)
Definition sends_nothing {A} (m : M A) : Prop :=
  forall w,
    match m w with
    | Ok _ w' | Raise _ w' => statements w' = statements w
    | OutOfFuel => True
    end.

(** A line that does not end the statement. *)
Definition goes_on (line : pystr) : Prop :=
  strip line <> [] /\ ends_statement line = false.

(** The sum of a list of widths. *)
Definition sum_of (l : list Z) : Z := fold_right Z.add 0 l.

(** [sample_env] with [tabulate] installed and a server that answers every
    statement with [sample_rows]; its [tabulate] raises on every table. *)
Definition raising_env : env :=
  {| terminal_columns := Some 80;
     HAVE_TABULATE := true;
     tabulate := fun _ _ _ => inr (RenderError 0);
     server := fun _ _ => Executed 3 (Fetched sample_rows);
     gserver := fun _ _ => GExecuted None [] 0;
     default_name := lit "ob_query.csv";
     can_open := fun _ => true |}.

(** * Properties *)

(** ** Lists, slices and characters *)

Lemma len_app {A} (a b : list A) : len (a ++ b) = len a + len b.
Proof. unfold len. rewrite length_app. lia. Qed.

Lemma len_nonneg {A} (l : list A) : 0 <= len l.
Proof. unfold len. lia. Qed.

Lemma len_firstn {A} (n : nat) (l : list A) :
  len (firstn n l) = Z.min (Z.of_nat n) (len l).
Proof. unfold len. rewrite length_firstn. lia. Qed.

Lemma slice_to_nonneg {A} (k : Z) (s : list A) :
  0 <= k -> slice_to k s = firstn (Z.to_nat k) s.
Proof.
  intros Hk. unfold slice_to.
  destruct (Z.ltb_spec k 0); [lia | reflexivity].
Qed.

Lemma slice_to_minus_one {A} (s : list A) :
  slice_to (-1) s = firstn (length s - 1) s.
Proof.
  unfold slice_to, len.
  replace (-1 <? 0) with true by reflexivity.
  f_equal. lia.
Qed.

(** The code points from 33 to 132 hold no space and no surrogate. *)
Lemma printable_not_space (c : char) :
  (33 <= c <= 132)%N -> isspace c = false.
Proof.
  intros H. unfold isspace, between.
  repeat match goal with
         | |- context [(?a <=? ?b)%N] => destruct (N.leb_spec a b); try lia
         | |- context [(?a =? ?b)%N] => destruct (N.eqb_spec a b); try lia
         end; reflexivity.
Qed.

Lemma printable_not_surrogate (c : char) :
  (c <= 132)%N -> is_surrogate c = false.
Proof.
  intros H. unfold is_surrogate, between.
  destruct (N.leb_spec 55296 c); [lia | reflexivity].
Qed.

Lemma hexdigit_range (d : N) : (d < 16)%N -> (48 <= hexdigit d <= 102)%N.
Proof.
  intros H. unfold hexdigit. destruct (N.ltb_spec d 10); lia.
Qed.

Lemma space_not_surrogate (c : char) : isspace c = true -> is_surrogate c = false.
Proof.
  intros H. unfold is_surrogate, between.
  destruct (N.leb_spec 55296 c) as [Hc|]; [|reflexivity].
  destruct (N.leb_spec c 57343) as [Hd|]; [|reflexivity].
  exfalso. revert H. unfold isspace, between.
  repeat match goal with
         | |- context [(?a <=? ?b)%N] => destruct (N.leb_spec a b); try lia
         | |- context [(?a =? ?b)%N] => destruct (N.eqb_spec a b); try lia
         end; discriminate.
Qed.

(** ** Words and tidy text *)

Lemma spaceless_app (a b : pystr) : spaceless a -> spaceless b -> spaceless (a ++ b).
Proof.
  intros Ha Hb c Hc. apply in_app_or in Hc. destruct Hc; auto.
Qed.

Lemma spaceless_rev (a : pystr) : spaceless a -> spaceless (rev a).
Proof. intros Ha c Hc. apply Ha. now apply in_rev. Qed.

Lemma spaceless_cons (c : char) (a : pystr) :
  isspace c = false -> spaceless a -> spaceless (c :: a).
Proof. intros Hc Ha d [<- | Hd]; auto. Qed.

Lemma join_cons2 (sep p q : pystr) (rest : list pystr) :
  join sep (p :: q :: rest) = p ++ sep ++ join sep (q :: rest).
Proof. reflexivity. Qed.

Lemma split_from_word (w cur s : pystr) :
  spaceless w -> split_from cur (w ++ s) = split_from (rev w ++ cur) s.
Proof.
  revert cur. induction w as [|c w IH]; intros cur Hw; [reflexivity|].
  simpl. rewrite (Hw c (or_introl eq_refl)).
  rewrite IH by (intros d Hd; apply Hw; now right).
  now rewrite <- app_assoc.
Qed.

Lemma split_from_words (cur s : pystr) :
  spaceless cur -> Forall word (split_from cur s).
Proof.
  revert cur. induction s as [|c s IH]; intros cur Hcur; simpl.
  - destruct cur as [|d cur]; [constructor|].
    constructor; [|constructor]. split.
    + intros H. apply (f_equal (@length _)) in H. rewrite length_rev in H. discriminate.
    + now apply spaceless_rev.
  - destruct (isspace c) eqn:Hc.
    + destruct cur as [|d cur].
      * apply IH. intros ? [].
      * constructor; [|apply IH; intros ? []]. split.
        -- intros H. apply (f_equal (@length _)) in H. rewrite length_rev in H. discriminate.
        -- now apply spaceless_rev.
    + apply IH. now apply spaceless_cons.
Qed.

Lemma split_from_space (d : char) (r s : pystr) :
  split_from (d :: r) ([SPACE] ++ s) = rev (d :: r) :: split_from [] s.
Proof. reflexivity. Qed.

Lemma split_from_end (d : char) (r : pystr) :
  split_from (d :: r) [] = [rev (d :: r)].
Proof. reflexivity. Qed.

Lemma split_join (ws : list pystr) :
  Forall word ws -> split (join [SPACE] ws) = ws.
Proof.
  unfold split. induction 1 as [|w ws [Hne Hw] Hws IH]; [reflexivity|].
  assert (Hrev : exists d r, rev w = d :: r).
  { destruct (rev w) as [|d r] eqn:Hr; [|eauto].
    apply (f_equal (@rev _)) in Hr. rewrite rev_involutive in Hr. now subst. }
  destruct Hrev as (d & r & Hr).
  destruct ws as [|w2 rest].
  - assert (Hone : split_from [] (w ++ []) = [w]).
    { rewrite split_from_word by assumption.
      rewrite app_nil_r, Hr, split_from_end, <- Hr, rev_involutive. reflexivity. }
    rewrite app_nil_r in Hone. exact Hone.
  - rewrite join_cons2, split_from_word by assumption.
    rewrite app_nil_r, Hr, split_from_space, <- Hr, rev_involutive, IH. reflexivity.
Qed.

Lemma tidy_split (s : pystr) : tidy (join [SPACE] (split s)).
Proof.
  exists (split s). split; [|reflexivity].
  apply split_from_words. intros ? [].
Qed.

Lemma tidy_collapse (s : pystr) : tidy s -> join [SPACE] (split s) = s.
Proof. intros (ws & Hws & ->). now rewrite split_join. Qed.

(** In tidy text, white space is the plain space only. *)
Lemma join_chars (ws : list pystr) (c : char) :
  In c (join [SPACE] ws) -> c = SPACE \/ exists w, In w ws /\ In c w.
Proof.
  induction ws as [|w ws IH]; [intros []|].
  destruct ws as [|w2 rest].
  - simpl. intros H. right. exists w. auto.
  - rewrite join_cons2. intros H. apply in_app_or in H. destruct H as [H|H].
    + right. exists w. split; [now left | assumption].
    + destruct H as [H|H]; [now left|].
      destruct (IH H) as [?|(w' & Hw' & Hc)]; [now left|].
      right. exists w'. split; [now right | assumption].
Qed.

Lemma tidy_space (s : pystr) (c : char) :
  tidy s -> In c s -> isspace c = true -> c = SPACE.
Proof.
  intros (ws & Hws & ->) Hin Hsp.
  destruct (join_chars _ _ Hin) as [?|(w & Hw & Hc)]; [assumption|].
  rewrite Forall_forall in Hws. destruct (Hws w Hw) as [_ Hno].
  rewrite (Hno c Hc) in Hsp. discriminate.
Qed.

Lemma replace1_absent (old new : char) (s : pystr) :
  ~ In old s -> replace1 old new s = s.
Proof.
  intros H. unfold replace1. rewrite <- (map_id s) at 2.
  apply map_ext_in. intros c Hc.
  destruct (N.eqb_spec c old); [subst; contradiction | reflexivity].
Qed.

Lemma tidy_replace (s : pystr) :
  tidy s -> replace1 TAB SPACE (replace1 LF SPACE (replace1 CR SPACE s)) = s.
Proof.
  intros Hs.
  assert (H : forall c, isspace c = true -> c <> SPACE -> ~ In c s).
  { intros c Hsp Hne Hin. apply Hne. eapply tidy_space; eauto. }
  rewrite (replace1_absent CR) by (apply H; [reflexivity | discriminate]).
  rewrite (replace1_absent LF) by (apply H; [reflexivity | discriminate]).
  apply replace1_absent, H; [reflexivity | discriminate].
Qed.

Lemma in_firstn {A} (n : nat) (l : list A) (x : A) : In x (firstn n l) -> In x l.
Proof.
  intros H. rewrite <- (firstn_skipn n l). apply in_or_app. now left.
Qed.

(** A prefix of tidy text, closed by a character that is no space, is tidy. *)
Lemma word_prefix (w : pystr) (n : nat) (e : char) :
  spaceless w -> isspace e = false -> word (firstn n w ++ [e]).
Proof.
  intros Hw He. split.
  - intros H. apply (f_equal (@length _)) in H. rewrite length_app in H. simpl in H. lia.
  - apply spaceless_app.
    + intros c Hc. apply Hw. eapply in_firstn; eauto.
    + intros c [<-|[]]. assumption.
Qed.

Lemma tidy_prefix (s : pystr) (n : nat) (e : char) :
  tidy s -> isspace e = false -> tidy (firstn n s ++ [e]).
Proof.
  intros (ws & Hws & ->) He. revert n.
  induction Hws as [|w ws Hw Hws IH]; intros n.
  - exists [[e]]. split.
    + constructor; [|constructor]. apply (word_prefix [] 0 e); [intros ? [] | assumption].
    + now rewrite firstn_nil.
  - destruct ws as [|w2 rest].
    + exists [firstn n w ++ [e]]. split; [|reflexivity].
      constructor; [|constructor]. apply word_prefix; [apply Hw | assumption].
    + rewrite join_cons2, firstn_app.
      destruct (Nat.le_gt_cases n (length w)) as [Hn|Hn].
      * replace (n - length w)%nat with 0%nat by lia. rewrite firstn_O, app_nil_r.
        exists [firstn n w ++ [e]]. split; [|reflexivity].
        constructor; [|constructor]. apply word_prefix; [apply Hw | assumption].
      * rewrite firstn_all2 by lia.
        destruct (n - length w)%nat as [|m] eqn:Hm; [lia|].
        simpl firstn.
        destruct (IH m) as (ws' & Hws' & Heq).
        exists (w :: ws'). split; [now constructor|].
        destruct ws' as [|w' ws''].
        { simpl in Heq. apply (f_equal (@length _)) in Heq.
          rewrite length_app in Heq. simpl in Heq. lia. }
        rewrite join_cons2, <- Heq, <- !app_assoc. reflexivity.
Qed.

(** ** The sanitizer *)

Lemma encodable_iff (s : pystr) :
  encodable s = true <-> forall c, In c s -> is_surrogate c = false.
Proof.
  unfold encodable. rewrite negb_true_iff. split.
  - intros H c Hc. destruct (is_surrogate c) eqn:Hs; [|reflexivity].
    assert (existsb is_surrogate s = true) by (apply existsb_exists; eauto).
    congruence.
  - intros H. destruct (existsb is_surrogate s) eqn:He; [|reflexivity].
    apply existsb_exists in He. destruct He as (c & Hc & Hs).
    rewrite (H c Hc) in Hs. discriminate.
Qed.

Lemma backslashreplace_chars (c d : char) :
  In d (backslashreplace c) ->
  (d = c /\ is_surrogate c = false) \/ (33 <= d <= 132)%N.
Proof.
  unfold backslashreplace. destruct (is_surrogate c) eqn:Hs.
  - intros H. right. simpl in H.
    assert (Hh : forall x, (48 <= hexdigit (x mod 16) <= 102)%N)
      by (intros x; apply hexdigit_range, N.mod_lt; discriminate).
    pose proof (Hh (c / 4096)%N). pose proof (Hh (c / 256)%N).
    pose proof (Hh (c / 16)%N). pose proof (Hh c).
    unfold BACKSLASH in H.
    repeat (destruct H as [<-|H]; [lia|]). destruct H.
  - intros [<-|[]]. now left.
Qed.

Lemma backslashreplace_word (w : pystr) : word w -> word (flat_map backslashreplace w).
Proof.
  intros [Hne Hw]. split.
  - destruct w as [|c w]; [contradiction|]. simpl.
    unfold backslashreplace at 1. destruct (is_surrogate c); discriminate.
  - intros d Hd. apply in_flat_map in Hd. destruct Hd as (c & Hc & Hd).
    destruct (backslashreplace_chars _ _ Hd) as [[-> _]|Hr]; [now apply Hw|].
    now apply printable_not_space.
Qed.

Lemma flat_map_join (f : char -> pystr) (sep : pystr) (ws : list pystr) :
  flat_map f (join sep ws) = join (flat_map f sep) (map (flat_map f) ws).
Proof.
  induction ws as [|w ws IH]; [reflexivity|].
  destruct ws as [|w2 rest]; [reflexivity|].
  rewrite join_cons2. simpl map. rewrite join_cons2, !flat_map_app, IH. reflexivity.
Qed.

Lemma backslashreplace_tidy (s : pystr) :
  tidy s -> tidy (flat_map backslashreplace s).
Proof.
  intros (ws & Hws & ->). exists (map (flat_map backslashreplace) ws). split.
  - rewrite Forall_forall in *. intros w Hw. apply in_map_iff in Hw.
    destruct Hw as (w0 & <- & Hw0). apply backslashreplace_word; auto.
  - now rewrite flat_map_join.
Qed.

Lemma backslashreplace_encodable (s : pystr) :
  encodable (flat_map backslashreplace s) = true.
Proof.
  apply encodable_iff. intros d Hd. apply in_flat_map in Hd.
  destruct Hd as (c & _ & Hd).
  destruct (backslashreplace_chars _ _ Hd) as [[-> Hs]|Hr]; [assumption|].
  apply printable_not_surrogate; lia.
Qed.

(** What [clean_text] returns is tidy and can be encoded ... *)
Lemma clean_text_tidy (s : pystr) :
  tidy (clean_text s) /\ encodable (clean_text s) = true.
Proof.
  unfold clean_text.
  set (t := join [SPACE] (split _)).
  assert (Ht : tidy t) by apply tidy_split.
  destruct (encodable t) eqn:He; [now split|].
  split; [now apply backslashreplace_tidy | apply backslashreplace_encodable].
Qed.

(** ... and [clean_text] leaves such text as it is. *)
Lemma clean_text_fixed (s : pystr) :
  tidy s -> encodable s = true -> clean_text s = s.
Proof.
  intros Hs He. unfold clean_text.
  rewrite tidy_replace, tidy_collapse by assumption. now rewrite He.
Qed.

Lemma truncate_short (L : Z) (s : pystr) : len s <= L -> truncate L s = s.
Proof.
  intros H. unfold truncate. destruct (Z.ltb_spec L (len s)); [lia | reflexivity].
Qed.

Lemma truncate_long (L : Z) (s : pystr) :
  L < len s -> truncate L s = slice_to (L - 1) s ++ [ELLIPSIS].
Proof.
  intros H. unfold truncate. destruct (Z.ltb_spec L (len s)); [reflexivity | lia].
Qed.

Lemma truncate_length (L : Z) (s : pystr) :
  1 <= L -> L < len s -> len (truncate L s) = L.
Proof.
  intros H1 H2. rewrite truncate_long, slice_to_nonneg, len_app, len_firstn by lia.
  change (len [ELLIPSIS]) with 1. lia.
Qed.

Lemma truncate_bound (L : Z) (s : pystr) : 1 <= L -> len (truncate L s) <= L.
Proof.
  intros H. destruct (Z.lt_ge_cases L (len s)).
  - rewrite truncate_length; lia.
  - rewrite truncate_short; lia.
Qed.

Lemma slice_to_prefix {A} (k : Z) (s : list A) : exists n, slice_to k s = firstn n s.
Proof. unfold slice_to. eauto. Qed.

(** Cut text stays tidy and encodable, and is not cut again. *)
Lemma truncate_stable (L : Z) (t : pystr) :
  0 <= L -> tidy t -> encodable t = true ->
  tidy (truncate L t) /\ encodable (truncate L t) = true
  /\ truncate L (truncate L t) = truncate L t.
Proof.
  intros HL Ht He.
  destruct (Z.lt_ge_cases L (len t)) as [Hlong|Hshort].
  2:{ rewrite !truncate_short by assumption. auto. }
  rewrite (truncate_long L t) by assumption.
  destruct (slice_to_prefix (L - 1) t) as (n & Hn).
  split; [|split].
  - rewrite Hn. now apply tidy_prefix.
  - apply encodable_iff. intros c Hc. apply in_app_or in Hc.
    destruct Hc as [Hc|[<-|[]]]; [|reflexivity].
    rewrite Hn in Hc. apply in_firstn in Hc.
    rewrite encodable_iff in He. auto.
  - destruct (Z.eq_dec L 0) as [->|Hne].
    + change (0 - 1) with (-1). rewrite slice_to_minus_one.
      assert (Hlen : (0 < length t)%nat) by (unfold len in Hlong; lia).
      set (u := firstn (length t - 1) t).
      assert (Hu : length u = (length t - 1)%nat)
        by (unfold u; rewrite length_firstn; lia).
      rewrite truncate_long by (rewrite len_app; unfold len; simpl; lia).
      change (0 - 1) with (-1). rewrite slice_to_minus_one.
      rewrite length_app, Hu. simpl length.
      replace (length t - 1 + 1 - 1)%nat with (length u + 0)%nat by lia.
      rewrite firstn_app_2, firstn_O, app_nil_r. reflexivity.
    + apply truncate_short.
      rewrite slice_to_nonneg, len_app, len_firstn by lia.
      change (len [ELLIPSIS]) with 1. lia.
Qed.

Lemma clean_text_nil : clean_text [] = [].
Proof. reflexivity. Qed.

Lemma clean_as_text (L : Z) (x : cell) :
  x <> CNone -> clean L x = truncate L (clean_text (py_str x)).
Proof. destruct x; [contradiction | reflexivity..]. Qed.

Lemma sanitized_tidy (x : cell) :
  tidy (sanitized x) /\ encodable (sanitized x) = true.
Proof.
  destruct x; try apply clean_text_tidy.
  split; [exists []; split; [constructor | reflexivity] | reflexivity].
Qed.

Lemma clean_sanitized (L : Z) (x : cell) :
  0 <= L -> clean L x = truncate L (sanitized x).
Proof.
  intros HL. destruct x; try reflexivity.
  simpl. rewrite truncate_short; [reflexivity | apply HL].
Qed.

Lemma clean_bound (L : Z) (x : cell) : 1 <= L -> len (clean L x) <= L.
Proof.
  intros HL. rewrite clean_sanitized by lia. now apply truncate_bound.
Qed.

(** ** Column widths *)

Lemma adaptive_cell_width_clamped (term : option Z) (headers : list pystr) (min_w max_w : Z) :
  min_w <= max_w ->
  min_w <= adaptive_cell_width term headers min_w max_w <= max_w.
Proof. intros H. unfold adaptive_cell_width. lia. Qed.

Lemma max_col_width_clamped (term : option Z) (n : Z) :
  10 <= max_col_width term n <= 40.
Proof. unfold max_col_width. lia. Qed.

Lemma rows_ll_bound (cw : Z) (headers : list pystr) (rows : list row) (r : list pystr) (s : pystr) :
  1 <= cw -> In r (rows_ll cw headers rows) -> In s r -> len s <= cw.
Proof.
  intros Hcw Hr Hs. unfold rows_ll in Hr.
  apply in_map_iff in Hr. destruct Hr as (r0 & <- & _).
  apply in_map_iff in Hs. destruct Hs as (h & <- & _).
  now apply clean_bound.
Qed.

(** C3.  For a result set of [n >= 1] columns and any terminal width (also
    none at all, or one below the reserve), the width [adaptive_cell_width]
    gives lies between the bounds 24 and 80, and the width [print_horizontal]
    computes between 10 and 40; the lower bounds are in 10..24, the upper ones
    in 40..80.  The width is one number for the whole table: in
    [print_horizontal] the list handed to the backend holds it once per
    column, and in [print_table] every cell of every column is cut to it. *)
Theorem column_width_uniform_and_clamped (term : option Z) (headers : list pystr) :
  1 <= len headers ->
  let cw := adaptive_cell_width term headers MIN_W MAX_W in
  let gw := max_col_width term (len headers) in
  (MIN_W <= cw <= MAX_W /\ 10 <= MIN_W <= 24 /\ 40 <= MAX_W <= 80)
  /\ (10 <= gw <= 40)
  /\ (length (max_col_widths_list term (len headers)) = length headers
      /\ forall i, (i < length headers)%nat ->
                   nth i (max_col_widths_list term (len headers)) 0 = gw)
  /\ (forall rows r s, In r (rows_ll cw headers rows) -> In s r -> len s <= cw).
Proof.
  intros Hn cw gw.
  assert (Hcw : MIN_W <= cw <= MAX_W)
    by (apply adaptive_cell_width_clamped; unfold MIN_W, MAX_W; lia).
  split; [|split; [|split]].
  - unfold MIN_W, MAX_W in *. lia.
  - apply max_col_width_clamped.
  - unfold max_col_widths_list. rewrite repeat_length. unfold len. split; [lia|].
    intros i Hi. apply nth_repeat_lt. lia.
  - intros rows r s Hr Hs. apply (rows_ll_bound cw headers rows r); auto.
    unfold MIN_W in Hcw. lia.
Qed.

Lemma column_width_uniform_and_clamped_witness :
  1 <= len [lit "a"; lit "b"; lit "c"]
  /\ adaptive_cell_width (Some 80) [lit "a"; lit "b"; lit "c"] MIN_W MAX_W = 24
  /\ max_col_width (Some 80) 3 = 23
  /\ 10 <= max_col_width (Some 80) (len [lit "a"; lit "b"; lit "c"]) <= 40.
Proof.
  split; [unfold len; simpl; lia|].
  split; [reflexivity|]. split; [reflexivity|].
  apply (column_width_uniform_and_clamped (Some 80) [lit "a"; lit "b"; lit "c"]).
  unfold len; simpl; lia.
Defined.

(** ** The sanitizer: cutting and idempotence *)

(** C4, as amended.  For a bound [L >= 1]: when the sanitized text is longer
    than [L], [clean] returns exactly [L] characters, the first [L - 1] of the
    sanitized text and then the one-character marker; when it is not longer
    than [L], [clean] returns it unchanged. *)
Theorem clean_truncation_law (L : Z) (x : cell) :
  1 <= L ->
  (L < len (sanitized x) ->
     len (clean L x) = L
     /\ clean L x = firstn (Z.to_nat (L - 1)) (sanitized x) ++ [ELLIPSIS])
  /\ (len (sanitized x) <= L -> clean L x = sanitized x).
Proof.
  intros HL. rewrite clean_sanitized by lia. split.
  - intros Hlong. split.
    + now apply truncate_length.
    + rewrite truncate_long, slice_to_nonneg by lia. reflexivity.
  - apply truncate_short.
Qed.

Lemma clean_truncation_law_witness :
  1 <= 4
  /\ (4 < len (sanitized (CStr (lit "ab cd"))) ->
        len (clean 4 (CStr (lit "ab cd"))) = 4
        /\ clean 4 (CStr (lit "ab cd"))
           = firstn (Z.to_nat (4 - 1)) (sanitized (CStr (lit "ab cd"))) ++ [ELLIPSIS])
  /\ (len (sanitized (CStr (lit "ab cd"))) <= 4 ->
        clean 4 (CStr (lit "ab cd")) = sanitized (CStr (lit "ab cd"))).
Proof.
  split; [lia|]. apply (clean_truncation_law 4 (CStr (lit "ab cd"))). lia.
Defined.

(** C4 as stated fails for the bound 0: the sanitized text ["abc"] is longer
    than 0, and [s[:-1]] drops one character only, so [clean] returns the
    three characters ["ab…"], not a text of length 0. *)
Lemma clean_truncation_law_fails_at_zero :
  0 < len (sanitized (CStr (lit "abc")))
  /\ clean 0 (CStr (lit "abc")) = lit "ab" ++ [ELLIPSIS]
  /\ len (clean 0 (CStr (lit "abc"))) <> 0.
Proof.
  split; [reflexivity|]. split; [reflexivity|]. discriminate.
Qed.

(** C8.  [clean] is idempotent: for a length bound [L] (a length, so
    [0 <= L]) and any cell, sanitizing the sanitized text gives it back; so
    does the text before the length test, where no bound is involved. *)
Theorem clean_idempotent (L : Z) (x : cell) :
  0 <= L ->
  clean L (CStr (clean L x)) = clean L x
  /\ sanitized (CStr (sanitized x)) = sanitized x.
Proof.
  intros HL. destruct (sanitized_tidy x) as [Ht He]. split.
  - rewrite (clean_sanitized L x) by assumption.
    destruct (truncate_stable L (sanitized x) HL Ht He) as (Ht' & He' & Hfix).
    unfold clean, py_str. rewrite clean_text_fixed by assumption. exact Hfix.
  - unfold sanitized at 1. unfold py_str. now apply clean_text_fixed.
Qed.

Lemma clean_idempotent_witness :
  0 <= 4
  /\ clean 4 (CStr (clean 4 (CStr (lit "ab  cd")))) = clean 4 (CStr (lit "ab  cd")).
Proof.
  split; [lia|]. apply (clean_idempotent 4 (CStr (lit "ab  cd"))). lia.
Defined.

(** The texts of some integers, as [str] prints them. *)
Example str_int_samples :
  str_int 0 = lit "0" /\ str_int 20 = lit "20" /\ str_int (-45) = lit "-45"
  /\ str_int 1000 = lit "1000".
Proof. repeat split. Qed.

(** ** The text of a cell and the line feed *)

Lemma starts_with_one (c : char) (s : pystr) :
  starts_with [c] s = match s with d :: _ => (c =? d)%N | [] => false end.
Proof. destruct s; simpl; [reflexivity | apply andb_true_r]. Qed.

Lemma contains_char (c : char) (s : pystr) :
  contains [c] s = true <-> In c s.
Proof.
  induction s as [|d s IH].
  - simpl. split; [discriminate | intros []].
  - change (contains [c] (d :: s)) with (starts_with [c] (d :: s) || contains [c] s).
    rewrite starts_with_one, orb_true_iff, IH, N.eqb_eq. simpl.
    split; intros [H|H]; auto.
Qed.

Lemma contains_char_false (c : char) (s : pystr) :
  ~ In c s -> contains [c] s = false.
Proof.
  intros H. destruct (contains [c] s) eqn:Hc; [|reflexivity].
  apply contains_char in Hc. contradiction.
Qed.

Lemma digit_range (n : N) : (48 <= 48 + n mod 10 <= 57)%N.
Proof.
  assert (H : (n mod 10 < 10)%N) by (apply N.mod_lt; discriminate).
  revert H. generalize (n mod 10)%N. intros m Hm. lia.
Qed.

Lemma digits_from_chars (fuel : nat) (n : N) (acc : pystr) (c : char) :
  (forall d, In d acc -> (48 <= d <= 57)%N) ->
  In c (digits_from fuel n acc) -> (48 <= c <= 57)%N.
Proof.
  revert n acc. induction fuel as [|f IH]; intros n acc Hacc.
  - simpl. intros [<-|H]; [apply digit_range | now apply Hacc].
  - simpl. destruct (n / 10 =? 0)%N.
    + intros [<-|H]; [apply digit_range | now apply Hacc].
    + apply IH. intros d [<-|H]; [apply digit_range | now apply Hacc].
Qed.

Lemma str_int_chars (z : Z) (c : char) :
  In c (str_int z) -> (45 <= c <= 57)%N.
Proof.
  unfold str_int, str_N. destruct (z <? 0).
  - intros [<-|H]; [lia|]. apply digits_from_chars in H; [lia | intros ? []].
  - intros H. apply digits_from_chars in H; [lia | intros ? []].
Qed.

Lemma bytes_quote_cases (b : list N) : bytes_quote b = DQUOTE \/ bytes_quote b = SQUOTE.
Proof. unfold bytes_quote. destruct (_ && _); auto. Qed.

Lemma repr_byte_no_lf (q c : char) : q <> LF -> ~ In LF (repr_byte q c).
Proof.
  intros Hq. unfold repr_byte, LF, TAB, CR, BACKSLASH in *.
  destruct (N.eqb_spec c q); [simpl; intros [H|[H|[]]]; [discriminate | lia]|].
  destruct (N.eqb_spec c 92); [simpl; intros [H|[H|[]]]; [discriminate | lia]|].
  simpl orb.
  destruct (N.eqb_spec c 9); [simpl; intros [H|[H|[]]]; discriminate|].
  destruct (N.eqb_spec c 10); [simpl; intros [H|[H|[]]]; discriminate|].
  destruct (N.eqb_spec c 13); [simpl; intros [H|[H|[]]]; discriminate|].
  destruct ((c <? 32)%N || (127 <=? c)%N).
  - assert (H1 : (48 <= hexdigit (c / 16 mod 16) <= 102)%N)
      by (apply hexdigit_range, N.mod_lt; discriminate).
    assert (H2 : (48 <= hexdigit (c mod 16) <= 102)%N)
      by (apply hexdigit_range, N.mod_lt; discriminate).
    simpl. intros [H|[H|[H|[H|[]]]]]; try discriminate; lia.
  - simpl. intros [H|[]]. lia.
Qed.

Lemma repr_bytes_no_lf (b : list N) : ~ In LF (repr_bytes b).
Proof.
  unfold repr_bytes.
  assert (Hq : bytes_quote b <> LF)
    by (destruct (bytes_quote_cases b) as [-> | ->]; discriminate).
  intros [H|[H|H]]; [discriminate | congruence |].
  apply in_app_or in H. destruct H as [H|[H|[]]]; [|congruence].
  apply in_flat_map in H. destruct H as (c & _ & H).
  now apply (repr_byte_no_lf (bytes_quote b) c).
Qed.

(** The text of a cell holds a line feed exactly when the cell is a [str]
    that holds one: this is what the test of the decision looks at. *)
Lemma newline_cell_text (c : cell) :
  contains [LF] (py_str c) = newline_cell c.
Proof.
  destruct c as [|z|s|b]; cbn [py_str newline_cell]; try reflexivity.
  - apply contains_char_false. intros H. apply str_int_chars in H. unfold LF in H. lia.
  - apply contains_char_false, repr_bytes_no_lf.
Qed.

(** ** The scan of the decision *)

Lemma any_newline_reads (r : list cell) :
  read_until_newline (fst (any_newline r)) (snd (any_newline r)) r.
Proof.
  induction r as [|c r IH]; simpl.
  - split; [reflexivity | intros ? []].
  - destruct (newline_cell c) eqn:Hc; simpl.
    + exists [], c, r. repeat split; [intros ? [] | now rewrite newline_cell_text].
    + destruct (any_newline r) as [found seen]. simpl in *. destruct found.
      * destruct IH as (pre & c1 & post & -> & Hpre & Hc1 & ->).
        exists (c :: pre), c1, post. repeat split; auto.
        intros c' [<-|H]; [now rewrite newline_cell_text | auto].
      * destruct IH as [-> Hall]. split; [reflexivity|].
        intros c' [<-|H]; [now rewrite newline_cell_text | auto].
Qed.

Lemma scan_rows_reads (results : list (list cell)) :
  read_until_newline (fst (scan_rows results)) (snd (scan_rows results)) (concat results).
Proof.
  induction results as [|r rest IH]; simpl.
  - split; [reflexivity | intros ? []].
  - pose proof (any_newline_reads r) as Hr.
    destruct (any_newline r) as [found seen]. simpl in Hr. destruct found; simpl.
    + destruct Hr as (pre & c & post & -> & Hpre & Hc & ->).
      exists pre, c, (post ++ concat rest). repeat split; auto.
      now rewrite <- app_assoc.
    + destruct Hr as [-> Hall].
      destruct (scan_rows rest) as [found' seen']. simpl in *. destruct found'.
      * destruct IH as (pre & c & post & -> & Hpre & Hc & ->).
        exists (r ++ pre), c, post. repeat split; auto.
        -- now rewrite <- app_assoc.
        -- intros c' H. apply in_app_or in H. destruct H; auto.
        -- now rewrite <- app_assoc.
      * destruct IH as [-> Hall']. split; [reflexivity|].
        intros c H. apply in_app_or in H. destruct H; auto.
Qed.

(** ** The layout decision *)

Lemma render_by_layout (E : env) (d : decision) (results : list (list cell))
  (headers : list pystr) :
  render E d results headers =
  match layout_of d with
  | Vertical =>
      (if is_too_wide d then say TooWide else ret tt) ;;
      (if has_newlines d then say HasNewlines else ret tt) ;;
      print_vertical results headers
  | Horizontal => print_horizontal E results headers
  end.
Proof. unfold render, layout_of. now destruct (is_too_wide d || has_newlines d). Qed.

Lemma decide_wide (headers : list pystr) (results : list (list cell)) :
  10 < len headers ->
  is_too_wide (decide headers results) = true /\ cells_read (decide headers results) = [].
Proof.
  intros H. unfold decide, MAX_HORIZONTAL_COLS.
  destruct (Z.ltb_spec 10 (len headers)); [|lia]. simpl. auto.
Qed.

Lemma decide_narrow (headers : list pystr) (results : list (list cell)) :
  len headers <= 10 ->
  is_too_wide (decide headers results) = false
  /\ has_newlines (decide headers results) = fst (scan_rows results)
  /\ cells_read (decide headers results) = snd (scan_rows results).
Proof.
  intros H. unfold decide, MAX_HORIZONTAL_COLS.
  destruct (Z.ltb_spec 10 (len headers)); [lia|]. simpl.
  destruct (scan_rows results). simpl. auto.
Qed.

(** C2.  The decision of [execute_and_print_query]: more than 10 headers give
    Vertical, and no cell is read; otherwise, if the text of some cell holds a
    line feed, the decision is Vertical and the scan has read the cells, row
    by row, up to the first such cell and no further; otherwise it is
    Horizontal.  The function takes the decision once, after the fetch, and
    then renders by it. *)
Theorem layout_decision_policy (headers : list pystr) (results : list (list cell)) :
  let d := decide headers results in
  (10 < len headers -> layout_of d = Vertical /\ cells_read d = [])
  /\ (len headers <= 10 ->
      (exists c, In c (concat results) /\ contains [LF] (py_str c) = true) ->
      layout_of d = Vertical
      /\ exists pre c post,
           concat results = pre ++ c :: post
           /\ (forall c', In c' pre -> contains [LF] (py_str c') = false)
           /\ contains [LF] (py_str c) = true
           /\ cells_read d = pre ++ [c])
  /\ (len headers <= 10 ->
      (forall c, In c (concat results) -> contains [LF] (py_str c) = false) ->
      layout_of d = Horizontal)
  /\ (forall (E : env) (sql : pystr) (rowcount : Z) (w : world),
        headers <> [] -> results <> [] -> strip sql <> [] ->
        gserver E (statements w) sql = GExecuted (Some headers) results rowcount ->
        execute_and_print_query E sql w =
        try_except
          (say (Executing sql) ;;
           _ <- gexecute E sql ;;
           match layout_of d with
           | Vertical =>
               (if is_too_wide d then say TooWide else ret tt) ;;
               (if has_newlines d then say HasNewlines else ret tt) ;;
               print_vertical results headers
           | Horizontal => print_horizontal E results headers
           end)
          any_exception
          (fun e => say (if is_driver_error e then SqlError e else ProgramError e)) w).
Proof.
  intros d. split; [|split; [|split]].
  - intros H. destruct (decide_wide headers results H) as [Hw Hr].
    unfold layout_of, d. now rewrite Hw, Hr.
  - intros H (c & Hin & Hc).
    destruct (decide_narrow headers results H) as (Hw & Hn & Hr).
    pose proof (scan_rows_reads results) as Hs.
    unfold layout_of, d. rewrite Hw, Hn, Hr.
    destruct (fst (scan_rows results)); [split; [reflexivity | exact Hs]|].
    destruct Hs as [_ Hall]. rewrite (Hall c Hin) in Hc. discriminate.
  - intros H Hall.
    destruct (decide_narrow headers results H) as (Hw & Hn & Hr).
    pose proof (scan_rows_reads results) as Hs.
    unfold layout_of, d. rewrite Hw, Hn.
    destruct (fst (scan_rows results)); [|reflexivity].
    destruct Hs as (pre & c & post & Heq & _ & Hc & _).
    rewrite Hall in Hc; [discriminate|]. rewrite Heq. apply in_or_app. right. now left.
  - intros E sql rowcount w Hh Hres Hsql Hserver.
    unfold execute_and_print_query.
    destruct (strip sql) as [|c0 s0] eqn:Hstrip; [contradiction|].
    unfold try_except, bind, say, emit, gexecute. simpl statements.
    rewrite Hserver.
    destruct headers as [|h hs]; [contradiction|].
    destruct results as [|r rest]; [contradiction|].
    rewrite render_by_layout. reflexivity.
Qed.

(** ** The monad *)

Lemma bind_ok {A B} (m : M A) (k : A -> M B) (w w' : world) (b : B) :
  bind m k w = Ok b w' -> exists a w1, m w = Ok a w1 /\ k a w1 = Ok b w'.
Proof.
  unfold bind. destruct (m w) as [a w1|e w1|]; [eauto | discriminate..].
Qed.

Lemma bind_of_ok {A B} (m : M A) (k : A -> M B) (w w1 : world) (a : A) :
  m w = Ok a w1 -> bind m k w = k a w1.
Proof. unfold bind. now intros ->. Qed.

Lemma say_ok (n : notice) (w : world) : say n w = Ok tt (with_output w [Note n]).
Proof. reflexivity. Qed.

(** ** Pagination *)

Lemma slice_len {A} (a b : Z) (s : list A) :
  0 <= a -> a <= b -> b <= len s -> len (slice a b s) = b - a.
Proof.
  intros Ha Hab Hb. unfold slice.
  destruct (Z.ltb_spec a 0); [lia|]. destruct (Z.ltb_spec b 0); [lia|].
  rewrite len_firstn. unfold len in *. rewrite length_skipn. lia.
Qed.

Lemma obey_keeps_inv (E : env) (rows : list row) (P page : Z) (cmd : pystr)
  (w w' : world) (page' : Z) :
  1 <= P -> page_inv (len rows) P page ->
  obey E rows P page cmd w = Ok (Some page') w' ->
  page_inv (len rows) P page'.
Proof.
  intros HP [H0 Hs] Hobey. unfold obey in Hobey.
  destruct (str_eqb cmd (lit "n")).
  { destruct (Z.leb_spec (len rows) (Z.min (page * P + P) (len rows))) as [Hl|Hl].
    - apply bind_ok in Hobey. destruct Hobey as (? & ? & _ & Hr).
      inversion Hr; subst. now split.
    - inversion Hobey; subst. split; [lia|]. nia. }
  destruct (str_eqb cmd (lit "p")).
  { destruct (Z.eqb_spec page 0) as [Hz|Hz].
    - apply bind_ok in Hobey. destruct Hobey as (? & ? & _ & Hr).
      inversion Hr; subst. now split.
    - inversion Hobey; subst. split; [lia|]. nia. }
  destruct (str_eqb cmd (lit "s")).
  { apply bind_ok in Hobey. destruct Hobey as (? & ? & _ & Hr).
    inversion Hr; subst. now split. }
  destruct (str_eqb cmd (lit "q")); [discriminate|].
  apply bind_ok in Hobey. destruct Hobey as (? & ? & _ & Hr).
  inversion Hr; subst. now split.
Qed.

Lemma visited_inv (E : env) (rows : list row) (P : Z) (w0 : world) (page : Z) (w : world) :
  rows <> [] -> 1 <= P ->
  visited E rows P 0 w0 page w -> page_inv (len rows) P page.
Proof.
  intros Hrows HP Hv. induction Hv as [|page w page' w' _ IH Hturn].
  - split; [lia|]. destruct rows; [contradiction|]. unfold len. simpl. lia.
  - unfold paginate_turn in Hturn.
    apply bind_ok in Hturn. destruct Hturn as (? & w1 & _ & Hturn).
    apply bind_ok in Hturn. destruct Hturn as (line & w2 & _ & Hturn).
    eapply obey_keeps_inv; eauto.
Qed.

Lemma last_page_rows (total P page : Z) :
  1 <= P -> 0 <= page -> page * P < total -> total <= page * P + P ->
  total - page * P = if total mod P =? 0 then P else total mod P.
Proof.
  intros HP H0 Hlt Hle.
  destruct (Z.eq_dec total (page * P + P)) as [Heq|Hne].
  - assert (Hm : total mod P = 0).
    { symmetry. apply (Z.mod_unique total P (page + 1) 0); [left; lia | lia]. }
    rewrite Hm. simpl. lia.
  - assert (Hm : total mod P = total - page * P).
    { symmetry. apply (Z.mod_unique total P page); [left; lia | lia]. }
    rewrite Hm. destruct (Z.eqb_spec (total - page * P) 0); lia.
Qed.

(** ** Reading back what the writer wrote *)

Lemma csv_special_false (c : char) :
  csv_special c = false -> c <> COMMA /\ c <> DQUOTE /\ c <> CR /\ c <> LF.
Proof.
  unfold csv_special. rewrite !orb_false_iff, !N.eqb_neq. tauto.
Qed.

Lemma read_plain (f acc : pystr) (fields : list pystr) (s : pystr) :
  needs_quote f = false ->
  csv_read InField acc fields (f ++ s) = csv_read InField (rev f ++ acc) fields s.
Proof.
  revert acc. induction f as [|c f IH]; intros acc Hf; [reflexivity|].
  simpl in Hf. apply orb_false_iff in Hf. destruct Hf as [Hc Hf].
  destruct (csv_special_false c Hc) as (H1 & H2 & H3 & H4).
  simpl. apply N.eqb_neq in H1, H3, H4. rewrite H1, H3, H4.
  rewrite IH by assumption. now rewrite <- app_assoc.
Qed.

Lemma read_plain_first (st : reader_state) (c : char) (fields : list pystr) (s : pystr) :
  at_field st -> csv_special c = false ->
  csv_read st [] fields (c :: s) = csv_read InField [c] fields s.
Proof.
  intros Hst Hc. destruct (csv_special_false c Hc) as (H1 & H2 & H3 & H4).
  apply N.eqb_neq in H1, H2, H3, H4.
  destruct Hst as [-> | ->]; simpl; now rewrite H1, H2, H3, H4.
Qed.

Lemma read_quoted (f acc : pystr) (fields : list pystr) (s : pystr) :
  csv_read InQuoted acc fields (double_quotes f ++ DQUOTE :: s)
  = csv_read QuoteInQuoted (rev f ++ acc) fields s.
Proof.
  revert acc. induction f as [|c f IH]; intros acc; [reflexivity|].
  unfold double_quotes. simpl flat_map. fold (double_quotes f).
  destruct (N.eqb_spec c DQUOTE) as [->|Hc].
  - simpl. rewrite IH. now rewrite <- app_assoc.
  - apply N.eqb_neq in Hc. simpl. rewrite Hc, IH. now rewrite <- app_assoc.
Qed.

Lemma read_open_quote (st : reader_state) (fields : list pystr) (s : pystr) :
  at_field st -> csv_read st [] fields (DQUOTE :: s) = csv_read InQuoted [] fields s.
Proof. intros [-> | ->]; reflexivity. Qed.

(** A field and the comma after it. *)
Lemma read_field_comma (st : reader_state) (f : pystr) (fields : list pystr) (s : pystr) :
  at_field st ->
  csv_read st [] fields (csv_field f ++ COMMA :: s) = csv_read StartField [] (f :: fields) s.
Proof.
  intros Hst. unfold csv_field. destruct (needs_quote f) eqn:Hq.
  - simpl app. rewrite read_open_quote by assumption.
    rewrite <- app_assoc. simpl app. rewrite read_quoted, app_nil_r. simpl.
    now rewrite rev_involutive.
  - destruct f as [|c f].
    + destruct Hst as [-> | ->]; reflexivity.
    + simpl in Hq. apply orb_false_iff in Hq. destruct Hq as [Hc Hf].
      simpl app. rewrite read_plain_first by assumption.
      rewrite read_plain by assumption. simpl.
      change (rev f ++ [c]) with (rev (c :: f)). now rewrite rev_involutive.
Qed.

(** The last field of a record and the end of the record.  A record that
    starts with an empty unquoted field and ends there is the one case the
    writer never produces. *)
Lemma read_field_end (st : reader_state) (f : pystr) (fields : list pystr) (s : pystr) :
  st = StartField \/ (st = StartRecord /\ csv_field f <> []) ->
  csv_read st [] fields (csv_field f ++ CR :: LF :: s)
  = rev (f :: fields) :: csv_read StartRecord [] [] s.
Proof.
  intros Hst.
  assert (Hat : at_field st) by (destruct Hst as [->|[-> _]]; [now right | now left]).
  unfold csv_field in *. destruct (needs_quote f) eqn:Hq.
  - simpl app. rewrite read_open_quote by assumption.
    rewrite <- app_assoc. simpl app. rewrite read_quoted, app_nil_r. simpl.
    now rewrite rev_involutive.
  - destruct f as [|c f].
    + destruct Hst as [->|[_ Hne]]; [reflexivity | contradiction].
    + simpl in Hq. apply orb_false_iff in Hq. destruct Hq as [Hc Hf].
      simpl app. rewrite read_plain_first by assumption.
      rewrite read_plain by assumption. simpl.
      change (rev f ++ [c]) with (rev (c :: f)). now rewrite rev_involutive.
Qed.

Lemma app_one {A} (c : A) (s : list A) : [c] ++ s = c :: s.
Proof. reflexivity. Qed.

Lemma read_fields (fs : list pystr) (f : pystr) (fields : list pystr) (s : pystr) :
  csv_read StartField [] fields (join [COMMA] (map csv_field (f :: fs)) ++ CR :: LF :: s)
  = (rev fields ++ f :: fs) :: csv_read StartRecord [] [] s.
Proof.
  revert f fields. induction fs as [|f2 fs IH]; intros f fields.
  - simpl map. simpl join. rewrite read_field_end by now left. reflexivity.
  - change (map csv_field (f :: f2 :: fs))
      with (csv_field f :: csv_field f2 :: map csv_field fs).
    rewrite join_cons2, <- !app_assoc, app_one.
    rewrite read_field_comma by now right.
    change (csv_field f2 :: map csv_field fs) with (map csv_field (f2 :: fs)).
    rewrite IH. simpl rev. now rewrite <- app_assoc.
Qed.

(** One record. *)
Lemma read_record (fs : list pystr) (s : pystr) :
  csv_read StartRecord [] [] (csv_record fs ++ s) = fs :: csv_read StartRecord [] [] s.
Proof.
  unfold csv_record. destruct fs as [|f fs]; [reflexivity|].
  destruct fs as [|f2 fs].
  - simpl map. simpl join. destruct (csv_field f) as [|c body] eqn:Hf.
    + assert (f = []) as ->.
      { unfold csv_field in Hf. destruct (needs_quote f); [discriminate | assumption]. }
      reflexivity.
    + rewrite <- Hf, <- app_assoc. simpl app.
      rewrite read_field_end; [reflexivity|]. right. split; [reflexivity|]. now rewrite Hf.
  - simpl map. rewrite join_cons2.
    destruct (csv_field f ++ [COMMA] ++ join [COMMA] (csv_field f2 :: map csv_field fs))
      as [|c body] eqn:Hbody.
    { apply (f_equal (@length _)) in Hbody. rewrite !length_app in Hbody. simpl in Hbody. lia. }
    rewrite <- Hbody, <- !app_assoc, app_one.
    rewrite read_field_comma by now left.
    change (csv_field f2 :: map csv_field fs) with (map csv_field (f2 :: fs)).
    change ([CR; LF] ++ s) with (CR :: LF :: s).
    rewrite read_fields. reflexivity.
Qed.

(** A whole file. *)
Lemma read_records (recs : list (list pystr)) :
  csv_read StartRecord [] [] (concat (map csv_record recs)) = recs.
Proof.
  induction recs as [|r recs IH]; [reflexivity|].
  simpl. now rewrite read_record, IH.
Qed.

Lemma csv_parse_marked (text : pystr) :
  csv_parse (BOM :: text) = csv_read StartRecord [] [] text.
Proof. reflexivity. Qed.

(** ** The export writer *)

Lemma str_eqb_eq (a b : pystr) : str_eqb a b = true <-> a = b.
Proof.
  unfold str_eqb. destruct (list_eq_dec N.eq_dec a b); split; congruence.
Qed.

Lemma str_eqb_refl (a : pystr) : str_eqb a a = true.
Proof. now apply str_eqb_eq. Qed.

Lemma str_eqb_neq (a b : pystr) : a <> b -> str_eqb a b = false.
Proof.
  intros H. destruct (str_eqb a b) eqn:Hab; [|reflexivity].
  apply str_eqb_eq in Hab. contradiction.
Qed.

Lemma keys_blank_none (r : row) : keys (blank_none r) = keys r.
Proof. unfold keys, blank_none. rewrite map_map. reflexivity. Qed.

Lemma exported_blank_none (r : row) : exported (blank_none r) = exported r.
Proof.
  unfold exported, blank_none. rewrite map_map. apply map_ext.
  intros [k v]. now destruct v.
Qed.

(** Looking the keys of a row up in the row gives its values, in order. *)
Lemma lookup_own_keys (r : row) :
  NoDup (keys r) -> map (fun k => csv_text (dict_get k r)) (keys r) = exported r.
Proof.
  induction r as [|[k v] r IH]; [reflexivity|].
  simpl. intros Hnd. inversion Hnd as [|? ? Hnotin Hnd']; subst.
  rewrite str_eqb_refl. f_equal.
  rewrite <- IH by assumption. apply map_ext_in. intros k' Hk'.
  rewrite str_eqb_neq; [reflexivity|]. intros ->. contradiction.
Qed.

Lemma own_keys_allowed (r : row) :
  forallb (fun kv => existsb (str_eqb (fst kv)) (keys r)) r = true.
Proof.
  apply forallb_forall. intros kv Hkv. apply existsb_exists.
  exists (fst kv). split; [now apply in_map | apply str_eqb_refl].
Qed.

Lemma encodable_app (a b : pystr) :
  encodable a = true -> encodable b = true -> encodable (a ++ b) = true.
Proof.
  rewrite !encodable_iff. intros Ha Hb c Hc. apply in_app_or in Hc. destruct Hc; auto.
Qed.

Lemma csv_field_chars (f : pystr) (c : char) :
  In c (csv_field f) -> c = DQUOTE \/ In c f.
Proof.
  unfold csv_field. destruct (needs_quote f); [|now right].
  intros [<-|H]; [now left|]. apply in_app_or in H. destruct H as [H|[<-|[]]]; [|now left].
  apply in_flat_map in H. destruct H as (d & Hd & Hc).
  destruct (d =? DQUOTE)%N.
  - destruct Hc as [<-|[<-|[]]]; now left.
  - destruct Hc as [<-|[]]. now right.
Qed.

Lemma join_comma_chars (parts : list pystr) (c : char) :
  In c (join [COMMA] parts) -> c = COMMA \/ exists p, In p parts /\ In c p.
Proof.
  induction parts as [|p parts IH]; [intros []|].
  destruct parts as [|q rest].
  - simpl. intros H. right. exists p. auto.
  - rewrite join_cons2. intros H. apply in_app_or in H. destruct H as [H|H].
    + right. exists p. split; [now left | assumption].
    + destruct H as [H|H]; [now left|].
      destruct (IH H) as [?|(p' & Hp' & Hc)]; [now left|].
      right. exists p'. split; [now right | assumption].
Qed.

Lemma csv_record_encodable (fs : list pystr) :
  Forall (fun f => encodable f = true) fs -> encodable (csv_record fs) = true.
Proof.
  intros Hfs. apply encodable_iff. intros c Hc.
  assert (Hbody : forall d, In d (join [COMMA] (map csv_field fs)) -> is_surrogate d = false).
  { intros d Hd. destruct (join_comma_chars _ _ Hd) as [->|(p & Hp & Hdp)]; [reflexivity|].
    apply in_map_iff in Hp. destruct Hp as (f & <- & Hf).
    destruct (csv_field_chars _ _ Hdp) as [->|Hdf]; [reflexivity|].
    rewrite Forall_forall in Hfs. specialize (Hfs f Hf).
    rewrite encodable_iff in Hfs. auto. }
  unfold csv_record in Hc.
  destruct fs as [|f fs].
  - destruct Hc as [<-|[<-|[]]]; reflexivity.
  - destruct (join [COMMA] (map csv_field (f :: fs))) as [|b body] eqn:Hb.
    + destruct Hc as [<-|[<-|[<-|[<-|[]]]]]; reflexivity.
    + apply in_app_or in Hc. destruct Hc as [Hc|[<-|[<-|[]]]]; auto.
Qed.

Lemma file_content_head (path c : pystr) (fs : list (pystr * pystr)) :
  file_content path ((path, c) :: fs) = Some c.
Proof. simpl. now rewrite str_eqb_refl. Qed.

Lemma fwrite_appends (path c s : pystr) (w : world) :
  file_content path (files w) = Some c -> encodable s = true ->
  exists w', fwrite path s w = Ok tt w'
             /\ file_content path (files w')
                = Some (match c with [] => BOM :: s | _ => c ++ s end)
             /\ same_console w w'.
Proof.
  intros Hc Hs. unfold fwrite. rewrite Hs, Hc.
  destruct c as [|c0 c]; eexists; (split; [reflexivity|]);
    (split; [apply file_content_head | now repeat split]).
Qed.

Lemma writerow_appends (path c : pystr) (r : row) (w : world) :
  file_content path (files w) = Some c -> NoDup (keys r) ->
  Forall (fun f => encodable f = true) (exported r) ->
  exists w', writerow path (keys r) (blank_none r) w = Ok tt w'
             /\ file_content path (files w')
                = Some (match c with [] => BOM :: csv_record (exported r)
                                   | _ => c ++ csv_record (exported r) end)
             /\ same_console w w'.
Proof.
  intros Hc Hnd Henc. rewrite <- (exported_blank_none r) in *.
  rewrite <- (keys_blank_none r) in *. generalize dependent (blank_none r).
  intros d Hnd Henc. unfold writerow.
  rewrite own_keys_allowed, lookup_own_keys by assumption.
  apply fwrite_appends; [assumption | now apply csv_record_encodable].
Qed.

Lemma writeheader_appends (path c : pystr) (headers : list pystr) (w : world) :
  file_content path (files w) = Some c -> NoDup headers ->
  Forall (fun f => encodable f = true) headers ->
  exists w', writeheader path headers w = Ok tt w'
             /\ file_content path (files w')
                = Some (match c with [] => BOM :: csv_record headers
                                   | _ => c ++ csv_record headers end)
             /\ same_console w w'.
Proof.
  intros Hc Hnd Henc. unfold writeheader.
  set (r := map (fun k => (k, CStr k)) headers).
  assert (Hk : keys r = headers)
    by (unfold keys, r; rewrite map_map, map_id; reflexivity).
  assert (He : exported r = headers)
    by (unfold exported, r; rewrite map_map, map_id; reflexivity).
  assert (Hb : blank_none r = r).
  { unfold blank_none, r. rewrite map_map. reflexivity. }
  pose proof (writerow_appends path c r w Hc) as H.
  rewrite Hk, He, Hb in H. now apply H.
Qed.

Lemma rows_appended (path : pystr) (headers : list pystr) (rows : list row) :
  NoDup headers ->
  Forall (fun r => keys r = headers) rows ->
  Forall (fun r => Forall (fun f => encodable f = true) (exported r)) rows ->
  forall (c0 : char) (c : pystr) (w : world),
  file_content path (files w) = Some (c0 :: c) ->
  exists w', for_each rows (fun r => writerow path headers (blank_none r)) w = Ok tt w'
             /\ file_content path (files w')
                = Some ((c0 :: c) ++ concat (map csv_record (map exported rows)))
             /\ same_console w w'.
Proof.
  intros Hnd Hkeys Henc. induction rows as [|r rows IH]; intros c0 c w Hc.
  - exists w. simpl. rewrite app_nil_r. now repeat split.
  - inversion Hkeys as [|? ? Hk Hkeys']; subst.
    inversion Henc as [|? ? He Henc']; subst.
    destruct (writerow_appends path (c0 :: c) r w Hc) as (w1 & Hw1 & Hc1 & Hs1);
      [assumption.. |].
    destruct (IH Hkeys' Henc' c0 (c ++ csv_record (exported r)) w1 Hc1)
      as (w2 & Hw2 & Hc2 & Hs2).
    exists w2. split; [|split].
    + simpl for_each. rewrite (bind_of_ok _ _ _ _ _ Hw1). exact Hw2.
    + rewrite Hc2. simpl. now rewrite <- !app_assoc.
    + destruct Hs1 as (? & ? & ?), Hs2 as (? & ? & ?). repeat split; congruence.
Qed.

Lemma prompt_with_default_reads (p : prompt) (default line : pystr) (rest : list pystr)
  (w : world) :
  stdin w = line :: rest ->
  prompt_with_default p default w
  = Ok (or_default (strip line) default)
       {| stdin := rest; stdout := stdout w ++ [Ask p];
          statements := statements w; files := files w |}.
Proof.
  intros H. unfold prompt_with_default, input, bind, emit, ret. simpl. now rewrite H.
Qed.

(** What [save_csv] does when every row has the keys of the first, the texts
    can be encoded and the file can be opened: it asks for the name and
    writes the header record and one record per row of the whole list. *)
Lemma save_csv_writes (E : env) (first : row) (more : list row) (w : world)
  (line : pystr) (rest : list pystr) :
  let rows := first :: more in
  let headers := keys first in
  let path := or_default (strip line) (default_name E) in
  NoDup headers ->
  Forall (fun r => keys r = headers) rows ->
  Forall (fun h => encodable h = true) headers ->
  Forall (fun r => Forall (fun f => encodable f = true) (exported r)) rows ->
  stdin w = line :: rest ->
  can_open E path = true ->
  exists w',
    save_csv E rows w = Ok tt w'
    /\ file_content path (files w')
       = Some (BOM :: concat (map csv_record (export_records headers rows)))
    /\ stdin w' = rest
    /\ stdout w' = stdout w ++ [Ask (AskCsvName (default_name E)); Note (Saved path)]
    /\ statements w' = statements w.
Proof.
  intros rows headers path Hnd Hkeys Hh Henc Hin Hopen.
  unfold rows at 1. unfold save_csv. fold headers.
  rewrite (bind_of_ok _ _ _ _ _ (prompt_with_default_reads _ _ _ _ _ Hin)).
  fold path.
  set (w1 := {| stdin := rest; stdout := stdout w ++ [Ask (AskCsvName (default_name E))];
                statements := statements w; files := files w |}).
  set (w2 := {| stdin := stdin w1; stdout := stdout w1;
                statements := statements w1; files := (path, []) :: files w1 |}).
  assert (Hopen_w : open_w E path w1 = Ok tt w2)
    by (unfold open_w; rewrite Hopen; reflexivity).
  assert (Hc2 : file_content path (files w2) = Some []) by apply file_content_head.
  destruct (writeheader_appends path [] headers w2 Hc2 Hnd Hh) as (w3 & Hw3 & Hc3 & Hs3).
  destruct (rows_appended path headers rows Hnd Hkeys Henc BOM (csv_record headers) w3 Hc3)
    as (w4 & Hw4 & Hc4 & Hs4).
  exists (with_output w4 [Note (Saved path)]).
  destruct Hs3 as (Hs3a & Hs3b & Hs3c), Hs4 as (Hs4a & Hs4b & Hs4c).
  split; [|split; [|split; [|split]]].
  - unfold try_except.
    rewrite (bind_of_ok _ _ _ _ _ Hopen_w), (bind_of_ok _ _ _ _ _ Hw3),
      (bind_of_ok _ _ _ _ _ Hw4).
    reflexivity.
  - simpl files. rewrite Hc4. reflexivity.
  - simpl. rewrite Hs4a, Hs3a. reflexivity.
  - simpl. rewrite Hs4b, Hs3b. simpl. rewrite <- app_assoc. reflexivity.
  - simpl. rewrite Hs4c, Hs3c. reflexivity.
Qed.

(** C6, as amended.  For a result set of at least one row, whose rows all
    have the columns of the first row under names that differ, when the file
    can be opened and the texts encoded: [save_csv] writes, after the marker
    of the encoding, one record with the header names in their order and then
    one record per row in the order of the rows, a [None] cell as an empty
    field; reading the file back gives the header names and, row by row, the
    texts of the cells, [None] as the empty text. *)
Theorem export_round_trip (E : env) (first : row) (more : list row) (w : world)
  (line : pystr) (rest : list pystr) :
  let rows := first :: more in
  let headers := keys first in
  let path := or_default (strip line) (default_name E) in
  NoDup headers ->
  Forall (fun r => keys r = headers) rows ->
  Forall (fun h => encodable h = true) headers ->
  Forall (fun r => Forall (fun f => encodable f = true) (exported r)) rows ->
  stdin w = line :: rest ->
  can_open E path = true ->
  exists w' content,
    save_csv E rows w = Ok tt w'
    /\ file_content path (files w') = Some content
    /\ content = BOM :: csv_record headers
                 ++ concat (map (fun r => csv_record (map (fun kv => csv_text (snd kv)) r)) rows)
    /\ csv_parse content
       = headers :: map (fun r => map (fun kv => csv_text (snd kv)) r) rows
    /\ csv_text CNone = [].
Proof.
  intros rows headers path Hnd Hkeys Hh Henc Hin Hopen.
  destruct (save_csv_writes E first more w line rest Hnd Hkeys Hh Henc Hin Hopen)
    as (w' & Hsave & Hfile & _).
  exists w', (BOM :: concat (map csv_record (export_records headers rows))).
  split; [exact Hsave|]. split; [exact Hfile|]. split; [|split].
  - unfold export_records. simpl concat. rewrite map_map. reflexivity.
  - rewrite csv_parse_marked, read_records. reflexivity.
  - reflexivity.
Qed.

Lemma sample_rows_fit :
  NoDup (keys (hd [] sample_rows))
  /\ Forall (fun r => keys r = keys (hd [] sample_rows)) sample_rows
  /\ Forall (fun h => encodable h = true) (keys (hd [] sample_rows))
  /\ Forall (fun r => Forall (fun f => encodable f = true) (exported r)) sample_rows.
Proof.
  split; [|split; [|split]].
  - repeat constructor; simpl; intuition discriminate.
  - repeat constructor.
  - repeat constructor.
  - repeat constructor.
Qed.

Lemma export_round_trip_witness :
  exists w' content,
    save_csv sample_env sample_rows (sample_world [lit "out.csv"]) = Ok tt w'
    /\ file_content (lit "out.csv") (files w') = Some content
    /\ csv_parse content
       = [ [lit "id"; lit "note"];
           [lit "1"; []];
           [lit "2"; lit "a,b"];
           [lit "3"; lit "say " ++ [DQUOTE] ++ lit "hi" ++ [DQUOTE; LF]] ].
Proof.
  destruct sample_rows_fit as (H1 & H2 & H3 & H4).
  destruct (export_round_trip sample_env (hd [] sample_rows) (tl sample_rows)
              (sample_world [lit "out.csv"]) (lit "out.csv") [] H1 H2 H3 H4
              eq_refl eq_refl)
    as (w' & content & Hsave & Hfile & _ & Hparse & _).
  exists w', content. split; [exact Hsave|]. split; [exact Hfile | exact Hparse].
Defined.

(** C6 as stated fails for the result set without rows: [save_csv] says that
    there is nothing to save, asks for no name and writes no file, so no
    header line is written. *)
Lemma export_of_no_rows_writes_nothing :
  save_csv sample_env [] (sample_world [lit "out.csv"])
  = Ok tt {| stdin := [lit "out.csv"]; stdout := [Note NothingToSave];
             statements := []; files := [] |}.
Proof. reflexivity. Qed.

(** C9.  The command [s] of the pager hands the whole list of rows to
    [save_csv], whatever the page shown, and the page of the next turn is the
    page of this one; when the export succeeds, the file holds the header
    record and one record for each row of the result set. *)
Theorem export_in_pagination (E : env) (first : row) (more : list row) (P page : Z)
  (w : world) (line : pystr) (rest : list pystr) :
  let rows := first :: more in
  let headers := keys first in
  let path := or_default (strip line) (default_name E) in
  NoDup headers ->
  Forall (fun r => keys r = headers) rows ->
  Forall (fun h => encodable h = true) headers ->
  Forall (fun r => Forall (fun f => encodable f = true) (exported r)) rows ->
  stdin w = line :: rest ->
  can_open E path = true ->
  obey E rows P page (lit "s") = (save_csv E rows ;; ret (Some page))
  /\ exists w',
       obey E rows P page (lit "s") w = Ok (Some page) w'
       /\ file_content path (files w')
          = Some (BOM :: concat (map csv_record (headers :: map exported rows)))
       /\ length (headers :: map exported rows) = S (length rows)
       /\ statements w' = statements w.
Proof.
  intros rows headers path Hnd Hkeys Hh Henc Hin Hopen.
  assert (Hobey : obey E rows P page (lit "s") = (save_csv E rows ;; ret (Some page)))
    by reflexivity.
  split; [exact Hobey|].
  destruct (save_csv_writes E first more w line rest Hnd Hkeys Hh Henc Hin Hopen)
    as (w' & Hsave & Hfile & _ & _ & Hst).
  exists w'. split; [|split; [|split]].
  - rewrite Hobey. fold rows in Hsave. now rewrite (bind_of_ok _ _ _ _ _ Hsave).
  - exact Hfile.
  - simpl. now rewrite length_map.
  - exact Hst.
Qed.

Lemma export_in_pagination_witness :
  exists w',
    obey sample_env sample_rows 2 1 (lit "s") (sample_world [lit "out.csv"])
    = Ok (Some 1) w'
    /\ option_map csv_parse (file_content (lit "out.csv") (files w'))
       = Some ([lit "id"; lit "note"] :: map exported sample_rows).
Proof.
  destruct sample_rows_fit as (H1 & H2 & H3 & H4).
  destruct (export_in_pagination sample_env (hd [] sample_rows) (tl sample_rows) 2 1
              (sample_world [lit "out.csv"]) (lit "out.csv") [] H1 H2 H3 H4
              eq_refl eq_refl)
    as (_ & w' & Hobey & Hfile & _).
  exists w'. split; [exact Hobey|].
  change (or_default (strip (lit "out.csv")) (default_name sample_env))
    with (lit "out.csv") in Hfile.
  rewrite Hfile. unfold option_map. rewrite csv_parse_marked, read_records. reflexivity.
Defined.

(** ** [run_query] *)

(** C10.  Once [execute] has accepted the statement, [run_query] returns a
    list of rows: the rows fetched, or, when [fetchall] raises the driver's
    [InterfaceError] because the statement has no result set, the one row
    [{"affected_rows": rowcount}]; the error does not leave [run_query], and
    [paginate] is handed that list. *)
Theorem run_query_returns_rows (E : env) (sql : pystr) (w : world) (rowcount : Z)
  (f : fetched) :
  server E (statements w) sql = Executed rowcount f ->
  let w' := {| stdin := stdin w; stdout := stdout w ++ [Note (Elapsed (len sql))];
               statements := statements w ++ [sql]; files := files w |} in
  let affected := [[(lit "affected_rows", CInt rowcount)]] in
  (forall rows, f = Fetched rows -> run_query E sql w = Ok rows w')
  /\ (f = FetchRaises InterfaceError ->
      run_query E sql w = Ok affected w'
      /\ (rows <- run_query E sql ;; paginate E rows 20) w = paginate E affected 20 w').
Proof.
  intros Hserver w' affected.
  assert (Hexec : execute E sql w
                  = Ok (rowcount, f)
                       {| stdin := stdin w; stdout := stdout w;
                          statements := statements w ++ [sql]; files := files w |})
    by (unfold execute; now rewrite Hserver).
  split.
  - intros rows ->. unfold run_query. rewrite (bind_of_ok _ _ _ _ _ Hexec). reflexivity.
  - intros ->.
    assert (Hrun : run_query E sql w = Ok affected w')
      by (unfold run_query; rewrite (bind_of_ok _ _ _ _ _ Hexec); reflexivity).
    split; [exact Hrun|]. now rewrite (bind_of_ok _ _ _ _ _ Hrun).
Qed.

Lemma run_query_returns_rows_witness :
  run_query sample_env (lit "set @a = 1") (sample_world [])
  = Ok [[(lit "affected_rows", CInt 1)]]
       {| stdin := []; stdout := [Note (Elapsed 10)];
          statements := [lit "set @a = 1"]; files := [] |}.
Proof.
  apply (run_query_returns_rows sample_env (lit "set @a = 1") (sample_world []) 1
           (FetchRaises InterfaceError) eq_refl).
  reflexivity.
Defined.

(** ** The vertical view and the fallback of [print_horizontal] *)

Lemma with_output_twice (w : world) (a b : list out) :
  with_output (with_output w a) b = with_output w (a ++ b).
Proof. unfold with_output. simpl. now rewrite <- app_assoc. Qed.

Lemma emit_ok (o : out) (w : world) : emit o w = Ok tt (with_output w [o]).
Proof. reflexivity. Qed.

Lemma print_fields_lines (width : Z) (headers : list pystr) (r : list cell) (j : nat)
  (w : world) :
  (length headers + j <= length r)%nat ->
  print_fields width headers j r w
  = Ok tt (with_output w (map (field_line width) (combine headers (skipn j r)))).
Proof.
  revert j w. induction headers as [|h hs IH]; intros j w Hlen.
  - simpl. unfold ret, with_output. destruct w. simpl. now rewrite app_nil_r.
  - simpl in Hlen. simpl print_fields.
    destruct (nth_error r j) as [v|] eqn:Hv.
    2:{ apply nth_error_None in Hv. lia. }
    unfold bind, print. rewrite emit_ok, IH by lia. rewrite with_output_twice.
    assert (Hskip : skipn j r = v :: skipn (S j) r).
    { clear - Hv. revert j Hv. induction r as [|x r IHr]; intros [|j] Hv; try discriminate.
      - inversion Hv. reflexivity.
      - simpl in Hv. simpl. now apply IHr. }
    rewrite Hskip. reflexivity.
Qed.

Lemma print_records_lines (headers : list pystr) (results : list (list cell)) (i : Z)
  (w : world) :
  Forall (fun r => (length headers <= length r)%nat) results ->
  print_records headers i results w
  = Ok tt (with_output w (record_lines headers i results)).
Proof.
  intros Hres. revert i w. induction Hres as [|r rest Hr _ IH]; intros i w.
  - simpl. unfold ret, with_output. destruct w. simpl. now rewrite app_nil_r.
  - simpl print_records. unfold bind, print. rewrite emit_ok.
    rewrite print_fields_lines by lia. rewrite IH, !with_output_twice. reflexivity.
Qed.

Lemma print_vertical_lines (headers : list pystr) (results : list (list cell)) (w : world) :
  Forall (fun r => (length headers <= length r)%nat) results ->
  print_vertical results headers w = Ok tt (with_output w (vertical_view results headers)).
Proof.
  intros Hres. unfold print_vertical, bind, print. rewrite emit_ok.
  rewrite print_records_lines by assumption.
  rewrite emit_ok, !with_output_twice. reflexivity.
Qed.

Lemma fuel_free_bind {A B} (m : M A) (k : A -> M B) :
  fuel_free m -> (forall a, fuel_free (k a)) -> fuel_free (bind m k).
Proof.
  intros Hm Hk w. unfold bind. specialize (Hm w).
  destruct (m w); [apply Hk | discriminate | contradiction].
Qed.

Lemma fuel_free_emit (o : out) : fuel_free (emit o).
Proof. intros w. discriminate. Qed.

Lemma fuel_free_ret {A} (a : A) : fuel_free (ret a).
Proof. intros w. discriminate. Qed.

Lemma fuel_free_raise {A} (e : exn) : fuel_free (@raise A e).
Proof. intros w. discriminate. Qed.

Lemma fuel_free_print (s : pystr) : fuel_free (print s).
Proof. apply fuel_free_emit. Qed.

Lemma fuel_free_say (n : notice) : fuel_free (say n).
Proof. apply fuel_free_emit. Qed.

Create HintDb fuel.
#[local] Hint Resolve fuel_free_emit fuel_free_ret fuel_free_raise
  fuel_free_print fuel_free_say : fuel.

(** Splits a sequence of commands into its commands. *)
Ltac fuel_free :=
  repeat first
    [ solve [auto with fuel]
    | apply fuel_free_bind; [|intros ?] ].

Lemma fuel_free_print_fields (width : Z) (headers : list pystr) (j : nat) (r : list cell) :
  fuel_free (print_fields width headers j r).
Proof.
  revert j. induction headers as [|h hs IH]; intros j; simpl.
  - fuel_free.
  - destruct (nth_error r j); fuel_free.
Qed.
#[local] Hint Resolve fuel_free_print_fields : fuel.

Lemma fuel_free_print_records (headers : list pystr) (i : Z) (results : list (list cell)) :
  fuel_free (print_records headers i results).
Proof.
  revert i. induction results as [|r rest IH]; intros i; simpl; fuel_free.
Qed.
#[local] Hint Resolve fuel_free_print_records : fuel.

Lemma fuel_free_print_vertical (results : list (list cell)) (headers : list pystr) :
  fuel_free (print_vertical results headers).
Proof. unfold print_vertical. fuel_free. Qed.
#[local] Hint Resolve fuel_free_print_vertical : fuel.

Lemma fuel_free_print_horizontal (E : env) (results : list (list cell)) (headers : list pystr) :
  fuel_free (print_horizontal E results headers).
Proof.
  unfold print_horizontal. destruct (len headers =? 0); [fuel_free|].
  destruct (tabulate E _ _ _); fuel_free.
Qed.
#[local] Hint Resolve fuel_free_print_horizontal : fuel.

Lemma fuel_free_render (E : env) (d : decision) (results : list (list cell))
  (headers : list pystr) :
  fuel_free (render E d results headers).
Proof.
  unfold render.
  destruct (is_too_wide d || has_newlines d); [|fuel_free].
  destruct (is_too_wide d), (has_newlines d); fuel_free.
Qed.
#[local] Hint Resolve fuel_free_render : fuel.

(** [execute_and_print_query] always comes back to the menu loop. *)
Lemma execute_and_print_query_returns (E : env) (sql : pystr) (w : world) :
  exists w', execute_and_print_query E sql w = Ok tt w'.
Proof.
  unfold execute_and_print_query. destruct (strip sql); [eexists; reflexivity|].
  unfold try_except.
  match goal with |- exists _, match ?m w with _ => _ end = _ =>
    assert (Hm : fuel_free m); [|specialize (Hm w); destruct (m w) as [[] w1|e w1|]]
  end.
  - apply fuel_free_bind; [fuel_free | intros _].
    apply fuel_free_bind.
    + intros w0. unfold gexecute. destruct (gserver E _ _); discriminate.
    + intros [[description results] rowcount].
      destruct description as [[|h hs]|]; fuel_free.
      destruct results; fuel_free.
  - eauto.
  - eexists. reflexivity.
  - contradiction.
Qed.

(** ** The confirmation of risky statements *)

Lemma starts_with_app (p s : pystr) : starts_with p (p ++ s) = true.
Proof.
  induction p as [|c p IH]; [reflexivity|]. simpl. now rewrite N.eqb_refl.
Qed.

Lemma contains_here (p s : pystr) : starts_with p s = true -> contains p s = true.
Proof. intros H. destruct s; simpl; now rewrite H. Qed.

Lemma contains_infix (p pre post : pystr) : contains p (pre ++ p ++ post) = true.
Proof.
  induction pre as [|c pre IH].
  - rewrite app_nil_l. apply contains_here, starts_with_app.
  - rewrite <- app_comm_cons.
    change (contains p (c :: pre ++ p ++ post))
      with (starts_with p (c :: pre ++ p ++ post) || contains p (pre ++ p ++ post)).
    rewrite IH. apply orb_true_r.
Qed.

Lemma starts_with_prefix (p s : pystr) :
  starts_with p s = true -> exists post, s = p ++ post.
Proof.
  revert s. induction p as [|c p IH]; intros s H; [now exists s|].
  destruct s as [|d s]; [discriminate|]. simpl in H.
  apply andb_true_iff in H. destruct H as [Hc Hp]. apply N.eqb_eq in Hc. subst d.
  destruct (IH s Hp) as (post & ->). now exists post.
Qed.

Lemma contains_is_infix (p s : pystr) :
  contains p s = true -> exists pre post, s = pre ++ p ++ post.
Proof.
  induction s as [|c s IH]; simpl; rewrite orb_true_iff.
  - intros [H|H]; [|discriminate].
    destruct (starts_with_prefix _ _ H) as (post & ->). now exists [], post.
  - intros [H|H].
    + destruct (starts_with_prefix _ _ H) as (post & Heq). exists [], post. exact Heq.
    + destruct (IH H) as (pre & post & ->). now exists (c :: pre), post.
Qed.

(** The test of [main] fires exactly when the lowered statement, with a space
    put at each end, holds a keyword between two spaces. *)
Lemma risky_iff (sql : pystr) :
  risky sql = true <->
  exists k pre post,
    In k destructive_keywords
    /\ SPACE :: lower sql ++ [SPACE] = pre ++ SPACE :: k ++ SPACE :: post.
Proof.
  unfold risky. rewrite existsb_exists.
  change DANGER with (map (fun k => SPACE :: k ++ [SPACE]) destructive_keywords).
  change (lit " " ++ lower sql ++ lit " ") with (SPACE :: lower sql ++ [SPACE]).
  split.
  - intros (d & Hd & Hc). apply in_map_iff in Hd. destruct Hd as (k & <- & Hk).
    destruct (contains_is_infix _ _ Hc) as (pre & post & Heq).
    exists k, pre, post. split; [assumption|]. rewrite Heq.
    simpl. now rewrite <- app_assoc.
  - intros (k & pre & post & Hk & Heq). exists (SPACE :: k ++ [SPACE]).
    split; [apply in_map_iff; now exists k|]. rewrite Heq.
    replace (pre ++ SPACE :: k ++ SPACE :: post)
      with (pre ++ (SPACE :: k ++ [SPACE]) ++ post)
      by (simpl; now rewrite <- app_assoc).
    apply contains_infix.
Qed.

(** X17.  What [main] does keep of the confirmation.  When the lowered statement,
    with a space put at each end, holds one of the six keywords between two
    spaces, [main] asks for a confirmation before anything else: on any answer
    that is not [yes] (once stripped and lowered; the empty answer too) it
    says that the statement is cancelled and goes back to the menu, with no
    statement sent to the server and no file touched; on [yes] it goes on to
    run the statement.  When the test does not fire, the statement is run
    without a question. *)
Theorem risky_statement_needs_yes (E : env) (sql answer : pystr) (rest : list pystr)
  (w : world) (k pre post : pystr) :
  In k destructive_keywords ->
  SPACE :: lower sql ++ [SPACE] = pre ++ SPACE :: k ++ SPACE :: post ->
  stdin w = answer :: rest ->
  let asked := {| stdin := rest; stdout := stdout w ++ [Ask AskConfirm];
                  statements := statements w; files := files w |} in
  let run := try_except (rows <- run_query E sql ;; paginate E rows 20)
               any_exception (fun e => say (ExecFailed e) ;; pause) in
  (lower (strip answer) <> lit "yes" ->
   dispatch E sql w = Ok tt (with_output asked [Note Cancelled]))
  /\ (lower (strip answer) = lit "yes" -> dispatch E sql w = run asked)
  /\ (forall sql' w0, risky sql' = false ->
      dispatch E sql' w0
      = try_except (rows <- run_query E sql' ;; paginate E rows 20)
          any_exception (fun e => say (ExecFailed e) ;; pause) w0).
Proof.
  intros Hk Heq Hin asked run.
  assert (Hrisky : risky sql = true) by (apply risky_iff; eauto).
  assert (Hask : input AskConfirm w = Ok answer asked)
    by (unfold input, bind, emit; simpl; now rewrite Hin).
  split; [|split].
  - intros Hno. unfold dispatch. rewrite Hrisky.
    unfold bind at 1. unfold bind at 1. rewrite Hask.
    rewrite str_eqb_neq by assumption. reflexivity.
  - intros Hyes. unfold dispatch. rewrite Hrisky.
    unfold bind at 1. unfold bind at 1. rewrite Hask.
    rewrite Hyes, str_eqb_refl. reflexivity.
  - intros sql' w0 Hsafe. unfold dispatch. rewrite Hsafe. reflexivity.
Qed.

Lemma risky_statement_needs_yes_witness :
  dispatch sample_env (lit "DELETE FROM t") (sample_world [lit "no"])
  = Ok tt {| stdin := []; stdout := [Ask AskConfirm; Note Cancelled];
             statements := []; files := [] |}
  /\ dispatch sample_env (lit "DELETE FROM t") (sample_world [[]])
     = Ok tt {| stdin := []; stdout := [Ask AskConfirm; Note Cancelled];
                statements := []; files := [] |}.
Proof.
  split.
  - apply (risky_statement_needs_yes sample_env (lit "DELETE FROM t") (lit "no") []
             (sample_world [lit "no"]) (lit "delete") [] (lit "from t ")).
    + simpl. auto.
    + reflexivity.
    + reflexivity.
    + discriminate.
  - apply (risky_statement_needs_yes sample_env (lit "DELETE FROM t") [] []
             (sample_world [[]]) (lit "delete") [] (lit "from t ")).
    + simpl. auto.
    + reflexivity.
    + reflexivity.
    + discriminate.
Defined.

(** C1, at the input where [main] misses it.  The statement typed as the two
    lines [drop] and [table t;] holds the keyword [drop] as a whole word, but
    a line feed follows the keyword, not a space: the test of [main] does not
    fire, and the statement goes to the server although no confirmation was
    asked (the line [no] is read as a command of the pager). *)
Lemma keyword_before_newline_runs_unconfirmed :
  let sql := lit "drop" ++ [LF] ++ lit "table t;" in
  names_destructive sql = true
  /\ risky sql = false
  /\ exists w', dispatch sample_env sql (sample_world [lit "no"; lit "q"]) = Ok tt w'
                /\ statements w' = [sql]
                /\ never_asked (stdout w') = true.
Proof.
  split; [reflexivity|]. split; [reflexivity|].
  eexists. split; [vm_compute; reflexivity|]. split; reflexivity.
Qed.

(** ** The fuel of [paginate] is enough *)

Lemma reads_weaken {A} (m : M A) : reads true m -> reads false m.
Proof.
  intros H w. specialize (H w). destruct (m w); simpl in *; lia.
Qed.

Lemma reads_bind {A B} (s1 s2 : bool) (m : M A) (k : A -> M B) :
  reads s1 m -> (forall a, reads s2 (k a)) -> reads (s1 || s2) (bind m k).
Proof.
  intros Hm Hk w. unfold bind. specialize (Hm w).
  destruct (m w) as [a w1|e w1|]; [|destruct s1; lia | contradiction].
  specialize (Hk a w1). destruct (k a w1); [|destruct s1, s2; lia | contradiction].
  destruct s1, s2; simpl in *; lia.
Qed.

Lemma reads_seq {A B} (m : M A) (k : A -> M B) :
  reads false m -> (forall a, reads false (k a)) -> reads false (bind m k).
Proof. intros Hm Hk. apply (reads_bind false false); assumption. Qed.

Lemma reads_emit (o : out) : reads false (emit o).
Proof. intros w. simpl. lia. Qed.

Lemma reads_print (s : pystr) : reads false (print s).
Proof. apply reads_emit. Qed.

Lemma reads_say (n : notice) : reads false (say n).
Proof. apply reads_emit. Qed.

Lemma reads_clear_screen : reads false clear_screen.
Proof. apply reads_emit. Qed.

Lemma reads_ret {A} (a : A) : reads false (ret a).
Proof. intros w. simpl. lia. Qed.

Lemma reads_raise {A} (e : exn) : reads false (@raise A e).
Proof. intros w. simpl. lia. Qed.

Lemma reads_input (p : prompt) : reads true (input p).
Proof.
  intros w. unfold input, bind, emit. simpl. destruct (stdin w); simpl; lia.
Qed.

Lemma reads_try_except {A} (m : M A) (catches : exn -> bool) (handler : exn -> M A) :
  reads false m -> (forall e, reads false (handler e)) ->
  reads false (try_except m catches handler).
Proof.
  intros Hm Hh w. unfold try_except. specialize (Hm w).
  destruct (m w) as [a w1|e w1|]; [assumption | | contradiction].
  destruct (catches e); [|assumption].
  specialize (Hh e w1). destruct (handler e w1); [lia | lia | contradiction].
Qed.

Lemma reads_for_each {A} (l : list A) (f : A -> M unit) :
  (forall x, reads false (f x)) -> reads false (for_each l f).
Proof.
  intros Hf. induction l as [|x l IH]; simpl.
  - apply reads_ret.
  - apply reads_seq; [apply Hf | intros _; exact IH].
Qed.

Lemma reads_set_file (path content : pystr) : reads false (set_file path content).
Proof. intros w. simpl. lia. Qed.

Lemma reads_fwrite (path s : pystr) : reads false (fwrite path s).
Proof.
  intros w. unfold fwrite. destruct (encodable s); [|simpl; lia].
  destruct (file_content path (files w)) as [[|c0 c]|]; simpl; lia.
Qed.

Lemma reads_writerow (path : pystr) (fieldnames : list pystr) (r : row) :
  reads false (writerow path fieldnames r).
Proof.
  unfold writerow. destruct (forallb _ r); [apply reads_fwrite | apply reads_raise].
Qed.

Create HintDb reads.
#[local] Hint Resolve reads_emit reads_print reads_say reads_clear_screen reads_ret
  reads_raise reads_set_file reads_fwrite reads_writerow : reads.

(** Splits a sequence of commands that read nothing into its commands. *)
Ltac reads_nothing :=
  repeat first
    [ solve [auto with reads]
    | apply reads_seq; [|intros ?]
    | apply reads_for_each; intros ?
    | apply reads_try_except; [|intros ?] ].

Lemma reads_save_csv (E : env) (rows : list row) : reads false (save_csv E rows).
Proof.
  unfold save_csv. destruct rows as [|first more]; [reads_nothing|].
  apply reads_seq.
  - unfold prompt_with_default. apply reads_seq; [|reads_nothing].
    apply reads_weaken, reads_input.
  - intros path. unfold open_w, writeheader. destruct (can_open E path); reads_nothing.
Qed.

Lemma reads_print_table (E : env) (rows : list row) (max_width : option Z) :
  reads false (print_table E rows max_width).
Proof.
  unfold print_table. destruct rows as [|first more]; [reads_nothing|].
  destruct (HAVE_TABULATE E); [|reads_nothing].
  destruct (tabulate E _ _ _); reads_nothing.
Qed.

#[local] Hint Resolve reads_save_csv reads_print_table : reads.

Lemma reads_obey (E : env) (rows : list row) (P page : Z) (cmd : pystr) :
  reads false (obey E rows P page cmd).
Proof.
  unfold obey.
  repeat match goal with
         | |- context [if ?b then _ else _] => destruct b
         end; reads_nothing.
Qed.

Lemma reads_paginate_turn (E : env) (rows : list row) (P page : Z) :
  reads true (paginate_turn E rows P page).
Proof.
  unfold paginate_turn.
  apply (reads_bind false true); [unfold show_page; reads_nothing | intros _].
  apply (reads_bind true false); [apply reads_input | intros line; apply reads_obey].
Qed.

Lemma paginate_loop_fuel (E : env) (rows : list row) (P : Z) (fuel : nat) :
  forall page w, (length (stdin w) < fuel)%nat ->
                 paginate_loop E fuel rows P page w <> OutOfFuel.
Proof.
  induction fuel as [|fuel IH]; intros page w Hfuel; [lia|].
  simpl. unfold bind. pose proof (reads_paginate_turn E rows P page w) as Hturn.
  destruct (paginate_turn E rows P page w) as [[page'|] w'|e w'|];
    [|discriminate..|contradiction].
  apply IH. lia.
Qed.

(** [paginate] never runs out of the fuel it gives itself: it returns, or
    raises what [input] or the table raised. *)
Lemma paginate_returns (E : env) (rows : list row) (P : Z) (w : world) :
  paginate E rows P w <> OutOfFuel.
Proof.
  unfold paginate. destruct rows; [discriminate|].
  apply paginate_loop_fuel. lia.
Qed.

(** ** Failures of a statement in [ob_admin_cli.py] *)

Lemma pause_returns (w : world) : exists w', pause w = Ok tt w'.
Proof.
  unfold pause, try_except, input, bind, emit, ret. simpl.
  destruct (stdin w); eexists; reflexivity.
Qed.

Lemma fuel_free_try_except {A} (m : M A) (catches : exn -> bool) (handler : exn -> M A) :
  fuel_free m -> (forall e, fuel_free (handler e)) ->
  fuel_free (try_except m catches handler).
Proof.
  intros Hm Hh w. unfold try_except. specialize (Hm w).
  destruct (m w) as [a w1|e w1|]; [discriminate | | contradiction].
  destruct (catches e); [apply Hh | discriminate].
Qed.

Lemma run_query_fuel_free (E : env) (sql : pystr) : fuel_free (run_query E sql).
Proof.
  unfold run_query. apply fuel_free_bind.
  - intros w. unfold execute. destruct (server E (statements w) sql); discriminate.
  - intros cur. apply fuel_free_bind; [|intros rows; fuel_free].
    apply fuel_free_try_except; [|intros _; fuel_free].
    unfold fetchall. destruct (snd cur); fuel_free.
Qed.

(** Whatever the statement does, the turn of the menu loop ends normally
    once the confirmation, if any, has been answered. *)
Lemma dispatch_returns (E : env) (sql : pystr) (w : world) :
  risky sql = false \/ stdin w <> [] ->
  exists w', dispatch E sql w = Ok tt w'.
Proof.
  intros Hcase.
  assert (Hrun : forall w0,
             exists w', try_except (rows <- run_query E sql ;; paginate E rows 20)
                          any_exception (fun e => say (ExecFailed e) ;; pause) w0 = Ok tt w').
  { intros w0. unfold try_except, bind at 1.
    pose proof (run_query_fuel_free E sql w0) as Hq.
    destruct (run_query E sql w0) as [rows w1|e w1|]; [| |contradiction].
    - pose proof (paginate_returns E rows 20 w1) as Hp.
      destruct (paginate E rows 20 w1) as [[] w2|e w2|]; [eauto | |contradiction].
      simpl. unfold bind. rewrite say_ok. apply pause_returns.
    - simpl. unfold bind. rewrite say_ok. apply pause_returns. }
  unfold dispatch. destruct (risky sql).
  - destruct Hcase as [|Hin]; [discriminate|].
    destruct (stdin w) as [|answer rest] eqn:Hstdin; [contradiction|].
    unfold bind at 1. unfold bind at 1.
    assert (Hask : input AskConfirm w
                   = Ok answer {| stdin := rest; stdout := stdout w ++ [Ask AskConfirm];
                                  statements := statements w; files := files w |})
      by (unfold input, bind, emit; simpl; now rewrite Hstdin).
    rewrite Hask. destruct (str_eqb (lower (strip answer)) (lit "yes")).
    + apply Hrun.
    + eexists. reflexivity.
  - apply Hrun.
Qed.

(** In [ob_admin_cli.py] an error of [tabulate] is not caught by
    [print_table] or [paginate]: it ends the turn, and so the loop, of the
    pager before any command is read. *)
Lemma table_error_ends_pagination (E : env) (rows : list row) (P page : Z) (w : world)
  (first : row) (more : list row) (e : exn) :
  let start := page * P in
  let stop := Z.min (start + P) (len rows) in
  let width := adaptive_cell_width (terminal_columns E) (keys first) MIN_W MAX_W in
  HAVE_TABULATE E = true ->
  slice start stop rows = first :: more ->
  tabulate E (map (map CStr) (rows_ll width (keys first) (first :: more))) (keys first)
    {| tablefmt := lit "fancy_grid"; showindex := true; maxcolwidths := None |} = inr e ->
  paginate_turn E rows P page w
  = Raise e (with_output w [ClearScreen; Note (Range (start + 1) stop (len rows))]).
Proof.
  intros start stop width Hhave Hpage Htab.
  unfold paginate_turn, show_page, bind, clear_screen, say. rewrite !emit_ok.
  fold start. fold stop. rewrite Hpage. unfold print_table. rewrite Hhave.
  fold width. rewrite Htab. unfold raise. rewrite with_output_twice. reflexivity.
Qed.

(** * More properties *)

(** ** What only prints *)

Lemma only_prints_ret {A} (a : A) : only_prints (ret a).
Proof.
  intros w. simpl. repeat split. exists []. now rewrite app_nil_r.
Qed.

Lemma only_prints_raise {A} (e : exn) : only_prints (@raise A e).
Proof.
  intros w. simpl. repeat split. exists []. now rewrite app_nil_r.
Qed.

Lemma only_prints_emit (o : out) : only_prints (emit o).
Proof. intros w. simpl. repeat split. now exists [o]. Qed.

Lemma only_prints_print (s : pystr) : only_prints (print s).
Proof. apply only_prints_emit. Qed.

Lemma only_prints_say (n : notice) : only_prints (say n).
Proof. apply only_prints_emit. Qed.

Lemma only_prints_clear_screen : only_prints clear_screen.
Proof. apply only_prints_emit. Qed.

Lemma only_prints_bind {A B} (m : M A) (k : A -> M B) :
  only_prints m -> (forall a, only_prints (k a)) -> only_prints (bind m k).
Proof.
  intros Hm Hk w. unfold bind. specialize (Hm w).
  destruct (m w) as [a w1|e w1|]; [|assumption|contradiction].
  destruct Hm as (H1 & H2 & H3 & os1 & H4).
  specialize (Hk a w1).
  destruct (k a w1) as [b w2|e w2|]; [| |contradiction];
    destruct Hk as (K1 & K2 & K3 & os2 & K4);
    (repeat split; [congruence..|]);
    exists (os1 ++ os2); rewrite K4, H4; now rewrite <- app_assoc.
Qed.

Lemma only_prints_try_except {A} (m : M A) (catches : exn -> bool) (handler : exn -> M A) :
  only_prints m -> (forall e, only_prints (handler e)) ->
  only_prints (try_except m catches handler).
Proof.
  intros Hm Hh w. unfold try_except. specialize (Hm w).
  destruct (m w) as [a w1|e w1|]; [assumption| |contradiction].
  destruct (catches e); [|assumption].
  destruct Hm as (H1 & H2 & H3 & os1 & H4).
  specialize (Hh e w1).
  destruct (handler e w1) as [b w2|e2 w2|]; [| |contradiction];
    destruct Hh as (K1 & K2 & K3 & os2 & K4);
    (repeat split; [congruence..|]);
    exists (os1 ++ os2); rewrite K4, H4; now rewrite <- app_assoc.
Qed.

Lemma only_prints_for_each {A} (l : list A) (f : A -> M unit) :
  (forall x, only_prints (f x)) -> only_prints (for_each l f).
Proof.
  intros Hf. induction l as [|x l IH]; simpl.
  - apply only_prints_ret.
  - apply only_prints_bind; [apply Hf | intros _; exact IH].
Qed.

Create HintDb prints.
#[local] Hint Resolve only_prints_ret only_prints_raise only_prints_emit
  only_prints_print only_prints_say only_prints_clear_screen : prints.

(** Splits a sequence of commands that print into its commands. *)
Ltac only_prints :=
  repeat first
    [ solve [auto with prints]
    | apply only_prints_bind; [|intros ?]
    | apply only_prints_for_each; intros ?
    | apply only_prints_try_except; [|intros ?] ].

Lemma only_prints_print_fields (width : Z) (headers : list pystr) (j : nat) (r : list cell) :
  only_prints (print_fields width headers j r).
Proof.
  revert j. induction headers as [|h hs IH]; intros j; simpl.
  - only_prints.
  - destruct (nth_error r j); only_prints.
Qed.
#[local] Hint Resolve only_prints_print_fields : prints.

Lemma only_prints_print_records (headers : list pystr) (i : Z) (results : list (list cell)) :
  only_prints (print_records headers i results).
Proof.
  revert i. induction results as [|r rest IH]; intros i; simpl; only_prints.
Qed.
#[local] Hint Resolve only_prints_print_records : prints.

Lemma only_prints_print_vertical (results : list (list cell)) (headers : list pystr) :
  only_prints (print_vertical results headers).
Proof. unfold print_vertical. only_prints. Qed.
#[local] Hint Resolve only_prints_print_vertical : prints.

Lemma only_prints_print_horizontal (E : env) (results : list (list cell))
  (headers : list pystr) :
  only_prints (print_horizontal E results headers).
Proof.
  unfold print_horizontal. destruct (len headers =? 0); [only_prints|].
  destruct (tabulate E _ _ _); only_prints.
Qed.
#[local] Hint Resolve only_prints_print_horizontal : prints.

Lemma only_prints_print_table (E : env) (rows : list row) (max_width : option Z) :
  only_prints (print_table E rows max_width).
Proof.
  unfold print_table. destruct rows as [|first more]; [only_prints|].
  destruct (HAVE_TABULATE E); [|only_prints].
  destruct (tabulate E _ _ _); only_prints.
Qed.
#[local] Hint Resolve only_prints_print_table : prints.

(** X1.  Rendering in [ob_gemini_v1.py] only prints: whatever the rows, the
    headers and the backend do, also when a row is too short or the backend
    raises, [print_vertical], [print_horizontal] and the routing between them
    read no input, send no statement and touch no file. *)
Theorem rendering_only_prints (E : env) (d : decision) (results : list (list cell))
  (headers : list pystr) :
  only_prints (print_vertical results headers)
  /\ only_prints (print_horizontal E results headers)
  /\ only_prints (render E d results headers).
Proof.
  split; [|split]; [only_prints..|].
  unfold render. destruct (is_too_wide d || has_newlines d); [|only_prints].
  destruct (is_too_wide d), (has_newlines d); only_prints.
Qed.

(** X2.  Showing a page in [ob_admin_cli.py] only prints: [print_table], with
    the backend or with its text table, and the first half of a turn of
    [paginate] read no input, send no statement and touch no file, whatever
    the rows and the backend do. *)
Theorem page_display_only_prints (E : env) (rows : list row) (max_width : option Z)
  (page_size page : Z) :
  only_prints (print_table E rows max_width)
  /\ only_prints (show_page E rows page_size page).
Proof.
  split; [only_prints|]. unfold show_page. only_prints.
Qed.

(** ** The text table of [print_table] *)

Lemma len_repeat {A} (c : A) (n : nat) : len (repeat c n) = Z.of_nat n.
Proof. unfold len. now rewrite repeat_length. Qed.

Lemma len_join (sep : pystr) (p : pystr) (parts : list pystr) :
  len (join sep (p :: parts))
  = sum_of (map len (p :: parts)) + Z.of_nat (length parts) * len sep.
Proof.
  revert p. induction parts as [|q parts IH]; intros p.
  - simpl. lia.
  - rewrite join_cons2, !len_app, IH. simpl sum_of. simpl length. lia.
Qed.

Lemma map_seq_nth {A} (d : A) (l : list A) :
  map (fun i => nth i l d) (seq 0 (length l)) = l.
Proof.
  induction l as [|x l IH]; [reflexivity|].
  simpl. f_equal. rewrite <- seq_shift, map_map. exact IH.
Qed.

Lemma nth_map_seq {A} (f : nat -> A) (n i : nat) (d : A) :
  (i < n)%nat -> nth i (map f (seq 0 n)) d = f i.
Proof.
  intros Hi. rewrite (nth_indep _ d (f 0%nat)) by (now rewrite length_map, length_seq).
  rewrite map_nth, seq_nth by assumption. reflexivity.
Qed.

Lemma fold_left_max_ge (l : list Z) (a : Z) :
  a <= fold_left Z.max l a /\ forall x, In x l -> x <= fold_left Z.max l a.
Proof.
  revert a. induction l as [|y l IH]; intros a; simpl.
  - split; [lia | intros ? []].
  - destruct (IH (Z.max a y)) as [H1 H2]. split; [lia|].
    intros x [<-|Hx]; [lia | auto].
Qed.

Lemma col_w_length (headers : list pystr) (ll : list (list pystr)) :
  length (col_w headers ll) = length headers.
Proof. unfold col_w. now rewrite length_map, length_seq. Qed.

Lemma col_w_nth (headers : list pystr) (ll : list (list pystr)) (i : nat) :
  (i < length headers)%nat ->
  nth i (col_w headers ll) 0
  = fold_left Z.max (map (fun r => len (nth i r [])) ll) (len (nth i headers [])).
Proof. intros Hi. unfold col_w. now rewrite nth_map_seq. Qed.

(** Every column is as wide as its header and as each of its cells. *)
Lemma col_w_fits (headers : list pystr) (ll : list (list pystr)) (i : nat) :
  (i < length headers)%nat ->
  len (nth i headers []) <= nth i (col_w headers ll) 0
  /\ forall r, In r ll -> len (nth i r []) <= nth i (col_w headers ll) 0.
Proof.
  intros Hi. rewrite col_w_nth by assumption.
  destruct (fold_left_max_ge (map (fun r => len (nth i r [])) ll) (len (nth i headers [])))
    as [H1 H2].
  split; [assumption|]. intros r Hr. apply H2.
  apply in_map_iff. now exists r.
Qed.

Lemma sum_of_ext_seq (f g : nat -> Z) (n : nat) :
  (forall i, (i < n)%nat -> f i = g i) ->
  sum_of (map f (seq 0 n)) = sum_of (map g (seq 0 n)).
Proof.
  intros H. f_equal. apply map_ext_in. intros i Hi. apply in_seq in Hi. apply H. lia.
Qed.

Lemma sum_of_plus (f : nat -> Z) (c : Z) (l : list nat) :
  sum_of (map (fun i => f i + c) l) = sum_of (map f l) + Z.of_nat (length l) * c.
Proof.
  induction l as [|x l IH]; [simpl; lia|].
  change (sum_of (map (fun i => f i + c) (x :: l)))
    with (f x + c + sum_of (map (fun i => f i + c) l)).
  change (sum_of (map f (x :: l))) with (f x + sum_of (map f l)).
  change (length (x :: l)) with (S (length l)).
  rewrite IH, Nat2Z.inj_succ. ring.
Qed.

Lemma len_ljust (w : Z) (s : pystr) : len s <= w -> len (ljust w s) = w.
Proof.
  intros H. unfold ljust. rewrite len_app, len_repeat. pose proof (len_nonneg s). lia.
Qed.

Lemma len_join_seq (sep : pystr) (f : nat -> pystr) (n : nat) :
  len (join sep (map f (seq 0 (S n))))
  = sum_of (map (fun i => len (f i)) (seq 0 (S n))) + Z.of_nat n * len sep.
Proof.
  rewrite <- cons_seq.
  change (map f (0%nat :: seq 1 n)) with (f 0%nat :: map f (seq 1 n)).
  rewrite len_join, length_map, length_seq.
  change (f 0%nat :: map f (seq 1 n)) with (map f (0%nat :: seq 1 n)).
  now rewrite map_map.
Qed.

(** The length of a rule and of a line whose cells fit their columns. *)
Lemma len_rule (widths : list Z) :
  widths <> [] -> (forall i, 0 <= nth i widths 0) ->
  len (rule widths)
  = sum_of (map (fun i => nth i widths 0) (seq 0 (length widths)))
    + 3 * Z.of_nat (length widths) + 1.
Proof.
  intros Hne Hpos. unfold rule.
  assert (Hparts : map (fun w => repeat 45%N (Z.to_nat (w + 2))) widths
                   = map (fun i => repeat 45%N (Z.to_nat (nth i widths 0 + 2)))
                       (seq 0 (length widths))).
  { rewrite <- (map_seq_nth 0 widths) at 1. now rewrite map_map. }
  rewrite Hparts.
  destruct (length widths) as [|n] eqn:Hn; [destruct widths; [contradiction | discriminate]|].
  rewrite !len_app, len_join_seq.
  rewrite (sum_of_ext_seq _ (fun i => nth i widths 0 + 2))
    by (intros i _; rewrite len_repeat; specialize (Hpos i); lia).
  rewrite sum_of_plus, length_seq. change (len (lit "+")) with 1.
  rewrite Nat2Z.inj_succ. lia.
Qed.

Lemma len_text_line (widths : list Z) (cells : list pystr) :
  widths <> [] ->
  (forall i, (i < length widths)%nat -> len (nth i cells []) <= nth i widths 0) ->
  len (text_line widths cells)
  = sum_of (map (fun i => nth i widths 0) (seq 0 (length widths)))
    + 3 * Z.of_nat (length widths) + 1.
Proof.
  intros Hne Hfit. unfold text_line.
  destruct (length widths) as [|n] eqn:Hn; [destruct widths; [contradiction | discriminate]|].
  rewrite !len_app, len_join_seq.
  rewrite (sum_of_ext_seq _ (fun i => nth i widths 0))
    by (intros i Hi; apply len_ljust, Hfit; assumption).
  change (len (lit " | ")) with 3. change (len (lit "| ")) with 2.
  change (len (lit " |")) with 2. rewrite Nat2Z.inj_succ. lia.
Qed.

Lemma for_each_print (l : list pystr) (w : world) :
  for_each l (fun s => print s) w = Ok tt (with_output w (map Text l)).
Proof.
  revert w. induction l as [|s l IH]; intros w; simpl.
  - unfold ret, with_output. destruct w. simpl. now rewrite app_nil_r.
  - unfold bind, print. rewrite emit_ok, IH, with_output_twice. reflexivity.
Qed.

Lemma for_each_map {A B} (g : A -> B) (f : B -> M unit) (l : list A) :
  for_each l (fun x => f (g x)) = for_each (map g l) f.
Proof. induction l as [|x l IH]; simpl; [reflexivity | now rewrite IH]. Qed.

(** X3.  Without [tabulate], [print_table] prints a table that is a
    rectangle: for rows with at least one column, the rule, the line of the
    headers and the line of every row all have the same length, each cell
    padded to the widest text of its column. *)
Theorem text_table_is_rectangular (E : env) (first : row) (more : list row)
  (max_width : option Z) (w : world) :
  HAVE_TABULATE E = false ->
  keys first <> [] ->
  let rows := first :: more in
  let headers := keys first in
  let width := match max_width with
               | Some m => m
               | None => adaptive_cell_width (terminal_columns E) headers MIN_W MAX_W
               end in
  let lines := table_lines headers (rows_ll width headers rows) in
  print_table E rows max_width w = Ok tt (with_output w (map Text lines))
  /\ forall s, In s lines -> len s = len (rule (col_w headers (rows_ll width headers rows))).
Proof.
  intros Hhave Hkeys rows headers width lines. split.
  - unfold print_table, rows. rewrite Hhave. fold headers. fold width.
    set (ll := rows_ll width headers (first :: more)).
    unfold bind, print. rewrite !emit_ok.
    rewrite (for_each_map (text_line (col_w headers ll)) (fun s => emit (Text s))).
    change (fun s => emit (Text s)) with (fun s => print s).
    rewrite for_each_print, emit_ok, !with_output_twice.
    unfold lines, table_lines. fold ll. simpl map. rewrite map_app. reflexivity.
  - set (ll := rows_ll width headers rows) in *.
    set (widths := col_w headers ll).
    assert (Hlen : length widths = length headers) by apply col_w_length.
    assert (Hne : widths <> []).
    { intros H. rewrite H in Hlen. symmetry in Hlen.
      apply length_zero_iff_nil in Hlen. exact (Hkeys Hlen). }
    assert (Hpos : forall i, 0 <= nth i widths 0).
    { intros i. destruct (Nat.lt_ge_cases i (length headers)) as [Hi|Hi].
      - destruct (col_w_fits headers ll i Hi) as [H _].
        pose proof (len_nonneg (nth i headers [])). unfold widths. lia.
      - rewrite nth_overflow by lia. lia. }
    assert (Hheader : len (text_line widths headers) = len (rule widths)).
    { rewrite len_text_line; [now rewrite len_rule | assumption |].
      intros i Hi. destruct (col_w_fits headers ll i) as [H _]; [lia | exact H]. }
    intros s Hs. unfold lines, table_lines in Hs. fold ll in Hs. fold widths in Hs.
    destruct Hs as [<-|[<-|[<-|Hs]]]; auto.
    apply in_app_or in Hs. destruct Hs as [Hs|[<-|[]]]; auto.
    apply in_map_iff in Hs. destruct Hs as (r & <- & Hr).
    rewrite len_text_line; [now rewrite len_rule | assumption |].
    intros i Hi. destruct (col_w_fits headers ll i) as [_ H]; [lia | now apply H].
Qed.

Lemma text_table_is_rectangular_witness :
  HAVE_TABULATE sample_env = false
  /\ keys (hd [] sample_rows) <> []
  /\ print_table sample_env sample_rows None (sample_world [])
     = Ok tt (with_output (sample_world [])
                (map Text (table_lines (keys (hd [] sample_rows))
                             (rows_ll 32 (keys (hd [] sample_rows)) sample_rows)))).
Proof.
  split; [reflexivity|]. split; [discriminate|].
  apply (text_table_is_rectangular sample_env (hd [] sample_rows) (tl sample_rows)
           None (sample_world [])).
  - reflexivity.
  - discriminate.
Defined.

(** ** The page that is shown *)

Lemma slice_nth {A} (a b i : Z) (s : list A) (d : A) :
  0 <= a -> b <= len s -> 0 <= i < b - a ->
  nth (Z.to_nat i) (slice a b s) d = nth (Z.to_nat (a + i)) s d.
Proof.
  intros Ha Hb Hi. unfold slice.
  destruct (Z.ltb_spec a 0); [lia|]. destruct (Z.ltb_spec b 0); [lia|].
  rewrite nth_firstn, nth_skipn.
  destruct (Nat.ltb_spec (Z.to_nat i) (Z.to_nat (Z.min b (len s) - Z.min a (len s)))) as [_|Hge];
    [f_equal; lia | lia].
Qed.

Lemma print_table_lines (E : env) (first : row) (more : list row) (max_width : option Z)
  (w : world) :
  HAVE_TABULATE E = false ->
  let headers := keys first in
  let width := match max_width with
               | Some m => m
               | None => adaptive_cell_width (terminal_columns E) headers MIN_W MAX_W
               end in
  print_table E (first :: more) max_width w
  = Ok tt (with_output w (map Text (table_lines headers (rows_ll width headers (first :: more))))).
Proof.
  intros Hhave headers width.
  unfold print_table. rewrite Hhave. fold headers. fold width.
  set (ll := rows_ll width headers (first :: more)).
  unfold bind, print. rewrite !emit_ok.
  rewrite (for_each_map (text_line (col_w headers ll)) (fun s => emit (Text s))).
  change (fun s => emit (Text s)) with (fun s => print s).
  rewrite for_each_print, emit_ok, !with_output_twice.
  unfold table_lines. simpl map. rewrite map_app. reflexivity.
Qed.

Lemma page_rows (total P page : Z) :
  1 <= P -> 0 <= page -> page * P < total ->
  Z.min (page * P + P) total - page * P
  = if page * P + P <? total then P
    else if total mod P =? 0 then P else total mod P.
Proof.
  intros HP H0 Hlt. destruct (Z.ltb_spec (page * P + P) total) as [Hl|Hge]; [lia|].
  rewrite Z.min_r by lia. apply last_page_rows; lia.
Qed.

(** C5.  For a non-empty result set and a page size [P >= 1], in every state
    reached by any finite run of commands: the first row of the page,
    [page * P], is a multiple of [P] within the rows; the page that
    [show_page] displays there is the table of the rows [start], [start + 1],
    ... of the result set, [P] of them, except on the last page, which holds
    [total mod P] rows (or [P] when [P] divides [total]): one line of the
    text table for each, or one row of the matrix handed to [tabulate]; [n]
    on the last page and [p] on the first page say so and change nothing
    else. *)
Theorem pagination_invariant (E : env) (rows : list row) (P : Z)
  (w0 : world) (page : Z) (w : world) :
  rows <> [] -> 1 <= P ->
  visited E rows P 0 w0 page w ->
  let total := len rows in
  let start := page * P in
  let stop := Z.min (start + P) total in
  let count := if start + P <? total then P
               else if total mod P =? 0 then P else total mod P in
  (0 <= page /\ start mod P = 0 /\ 0 <= start < total)
  /\ len (slice start stop rows) = count
  /\ (exists first more,
        let headers := keys first in
        let width := adaptive_cell_width (terminal_columns E) headers MIN_W MAX_W in
        let ll := rows_ll width headers (first :: more) in
        let range := [ClearScreen; Note (Range (start + 1) stop total)] in
        first :: more = slice start stop rows
        /\ len (first :: more) = count
        /\ (forall i, 0 <= i < count ->
              nth (Z.to_nat i) (first :: more) [] = nth (Z.to_nat (start + i)) rows [])
        /\ len ll = count
        /\ len (table_lines headers ll) = count + 4
        /\ forall w1,
             show_page E rows P page w1
             = if HAVE_TABULATE E
               then match tabulate E (map (map CStr) ll) headers
                            {| tablefmt := lit "fancy_grid"; showindex := true;
                               maxcolwidths := None |} with
                    | inl table =>
                        Ok tt (with_output w1 (range ++ [Text table; Note PageMenu]))
                    | inr e => Raise e (with_output w1 range)
                    end
               else Ok tt (with_output w1 (range ++ map Text (table_lines headers ll)
                                           ++ [Note PageMenu])))
  /\ (total <= start + P ->
      forall w1, obey E rows P page (lit "n") w1
                 = Ok (Some page) (with_output w1 [Note LastPage]))
  /\ (page = 0 ->
      forall w1, obey E rows P page (lit "p") w1
                 = Ok (Some page) (with_output w1 [Note FirstPage])).
Proof.
  intros Hrows HP Hv total start stop count.
  destruct (visited_inv E rows P w0 page w Hrows HP Hv) as [H0 Hs].
  fold total in Hs. fold start in Hs.
  assert (Hcount : stop - start = count)
    by (apply page_rows; [exact HP | exact H0 | apply Hs]).
  assert (Hlen : len (slice start stop rows) = count)
    by (rewrite slice_len by (unfold stop; lia); exact Hcount).
  assert (Hpos : 1 <= count) by (unfold stop in Hcount; lia).
  split; [|split; [exact Hlen|split; [|split]]].
  - split; [assumption|]. split; [|assumption].
    unfold start. apply Z.mod_mul. lia.
  - assert (Hnth : forall i, 0 <= i < count ->
               nth (Z.to_nat i) (slice start stop rows) []
               = nth (Z.to_nat (start + i)) rows [])
      by (intros i Hi; pose proof (Z.le_min_r (start + P) total);
          apply slice_nth; [apply Hs | assumption | now rewrite Hcount]).
    assert (Hshow : forall w1, show_page E rows P page w1
              = (clear_screen ;; say (Range (start + 1) stop total) ;;
                 print_table E (slice start stop rows) None ;; say PageMenu) w1)
      by reflexivity.
    destruct (slice start stop rows) as [|first more];
      [unfold len in Hlen; simpl in Hlen; lia|].
    exists first, more. intros headers width ll range.
    assert (Hll : len ll = count)
      by (unfold ll, rows_ll, len; rewrite length_map; exact Hlen).
    split; [reflexivity|].
    split; [exact Hlen|]. split; [exact Hnth|]. split; [exact Hll|]. split.
    + rewrite <- Hll. unfold table_lines, len. cbn [length].
      rewrite length_app, length_map. cbn [length]. lia.
    + intros w1. rewrite Hshow. unfold bind, clear_screen, say. rewrite !emit_ok.
      rewrite with_output_twice. change ([ClearScreen] ++ [Note (Range (start + 1) stop total)])
        with range.
      destruct (HAVE_TABULATE E) eqn:Hhave.
      * unfold print_table. rewrite Hhave. fold headers. fold width. fold ll.
        destruct (tabulate E (map (map CStr) ll) headers _) as [table|e].
        -- unfold print. rewrite !emit_ok, !with_output_twice. reflexivity.
        -- reflexivity.
      * rewrite (print_table_lines E first more None _ Hhave). fold headers. fold width. fold ll.
        rewrite emit_ok, !with_output_twice. reflexivity.
  - intros Hlast w1. unfold obey. fold total. fold start. fold stop.
    change (str_eqb (lit "n") (lit "n")) with true. cbv iota.
    destruct (Z.leb_spec total stop) as [Hl|Hl]; [reflexivity|].
    unfold stop in Hl. lia.
  - intros -> w1. reflexivity.
Qed.

Lemma pagination_invariant_witness :
  sample_rows <> [] /\ 1 <= 2
  /\ exists w,
       visited sample_env sample_rows 2 0 (sample_world [lit "n"]) 1 w
       /\ (0 <= 1 /\ (1 * 2) mod 2 = 0 /\ 0 <= 1 * 2 < len sample_rows)
       /\ len (slice (1 * 2) (Z.min (1 * 2 + 2) (len sample_rows)) sample_rows) = 1
       /\ show_page sample_env sample_rows 2 1 w
          = Ok tt (with_output w
                     ([ClearScreen; Note (Range 3 3 3)]
                      ++ map Text (table_lines [lit "id"; lit "note"]
                                     [[lit "3"; lit "say " ++ [DQUOTE] ++ lit "hi" ++ [DQUOTE]]])
                      ++ [Note PageMenu])).
Proof.
  split; [discriminate|]. split; [lia|].
  assert (Hv : exists w, visited sample_env sample_rows 2 0 (sample_world [lit "n"]) 1 w).
  { eexists. eapply visited_turn; [apply visited_first | vm_compute; reflexivity]. }
  destruct Hv as [w Hv]. exists w. split; [exact Hv|].
  destruct (pagination_invariant sample_env sample_rows 2 (sample_world [lit "n"]) 1 w)
    as (Hinv & Hlen & (first & more & _ & Hone & Hnth & _ & _ & Hshow) & _);
    [discriminate | lia | exact Hv |].
  split; [exact Hinv|]. split; [exact Hlen|].
  rewrite Hshow.
  change (len (first :: more) = 1) in Hone.
  destruct more as [|second more]; [|exfalso; unfold len in Hone; simpl in Hone; lia].
  pose proof (Hnth 0 ltac:(vm_compute; split; [discriminate | reflexivity])) as Hfirst.
  change (nth (Z.to_nat 0) [first] []) with first in Hfirst.
  rewrite Hfirst. reflexivity.
Defined.

(** C7.  When the backend raises on the horizontal rendering of a result
    set, [print_horizontal] of [ob_gemini_v1.py] reports it and prints the
    vertical view of the rows and headers it was given (the rows as fetched,
    not the cleaned copy), and returns normally; [execute_and_print_query]
    returns to the menu loop on every statement.  That program renders a
    result set whole.  The pager of [ob_admin_cli.py] has no such fallback:
    when [tabulate] raises on a page, the turn of [paginate] ends with that
    error after the range line, no view of the page is printed and no
    command is read; the turn of the menu loop still ends normally. *)
Theorem render_failure_falls_back (E : env) (results : list (list cell))
  (headers : list pystr) (e : exn) (w : world) :
  headers <> [] ->
  Forall (fun r => (length headers <= length r)%nat) results ->
  tabulate E (cleaned_results results) headers
    {| tablefmt := lit "grid"; showindex := false;
       maxcolwidths := Some (max_col_widths_list (terminal_columns E) (len headers)) |}
  = inr e ->
  print_horizontal E results headers w
  = Ok tt (with_output w (Note (RenderFailed e) :: Note Degrading
                          :: vertical_view results headers))
  /\ print_horizontal E results headers w
     = (say (RenderFailed e) ;; say Degrading ;; print_vertical results headers) w
  /\ (forall sql w0, exists w1, execute_and_print_query E sql w0 = Ok tt w1)
  /\ (forall (rows : list row) (P page : Z) (first : row) (more : list row)
             (e' : exn) (w0 : world),
        let start := page * P in
        let stop := Z.min (start + P) (len rows) in
        let width := adaptive_cell_width (terminal_columns E) (keys first) MIN_W MAX_W in
        HAVE_TABULATE E = true ->
        slice start stop rows = first :: more ->
        tabulate E (map (map CStr) (rows_ll width (keys first) (first :: more))) (keys first)
          {| tablefmt := lit "fancy_grid"; showindex := true; maxcolwidths := None |}
        = inr e' ->
        paginate_turn E rows P page w0
        = Raise e' (with_output w0 [ClearScreen; Note (Range (start + 1) stop (len rows))]))
  /\ (forall sql w0, risky sql = false \/ stdin w0 <> [] ->
        exists w1, dispatch E sql w0 = Ok tt w1).
Proof.
  intros Hh Hres Htab.
  assert (Hfall : print_horizontal E results headers w
                  = (say (RenderFailed e) ;; say Degrading ;; print_vertical results headers) w).
  { unfold print_horizontal.
    destruct (Z.eqb_spec (len headers) 0) as [Hz|_].
    - destruct headers; [contradiction | unfold len in Hz; simpl in Hz; lia].
    - now rewrite Htab. }
  split; [|split; [exact Hfall|split; [|split]]].
  - rewrite Hfall. unfold bind, say. rewrite !emit_ok.
    rewrite print_vertical_lines by assumption. rewrite !with_output_twice. reflexivity.
  - intros. apply execute_and_print_query_returns.
  - intros rows P page first more e' w0 start stop width Hhave Hpage Htab'.
    now apply (table_error_ends_pagination E rows P page w0 first more e').
  - intros sql w0. apply dispatch_returns.
Qed.

Lemma render_failure_falls_back_witness :
  print_horizontal sample_env [[CInt 7; CStr (lit "x")]] [lit "a"; lit "b"] (sample_world [])
  = Ok tt (with_output (sample_world [])
             (Note (RenderFailed (RenderError 0)) :: Note Degrading
              :: vertical_view [[CInt 7; CStr (lit "x")]] [lit "a"; lit "b"])).
Proof.
  apply (render_failure_falls_back sample_env [[CInt 7; CStr (lit "x")]]
           [lit "a"; lit "b"] (RenderError 0) (sample_world [])).
  - discriminate.
  - repeat constructor.
  - reflexivity.
Defined.

(** C7 as stated fails where there are pages: in the pager of
    [ob_admin_cli.py], with [tabulate] installed and raising on the table of
    the first page, [paginate] ends with the error of the backend after the
    range line: no view of the page is printed, and the commands typed are
    not read by the pager.  [main] reports the failure, and its pause takes
    the next line. *)
Lemma table_error_leaves_the_pager :
  paginate raising_env sample_rows 2 (sample_world [lit "n"; lit "q"])
  = Raise (RenderError 0)
      {| stdin := [lit "n"; lit "q"];
         stdout := [ClearScreen; Note (Range 1 2 3)];
         statements := []; files := [] |}
  /\ dispatch raising_env (lit "select 1") (sample_world [lit "n"; lit "q"])
     = Ok tt {| stdin := [lit "q"];
                stdout := [Note (Elapsed 8); ClearScreen; Note (Range 1 3 3);
                           Note (ExecFailed (RenderError 0)); Ask AskContinue];
                statements := [lit "select 1"]; files := [] |}.
Proof. split; reflexivity. Qed.

(** ** The cells of the table *)

Lemma truncate_tidy (L : Z) (t : pystr) :
  tidy t -> encodable t = true ->
  tidy (truncate L t) /\ encodable (truncate L t) = true.
Proof.
  intros Ht He. unfold truncate. destruct (L <? len t); [|now split].
  destruct (slice_to_prefix (L - 1) t) as (n & ->). split.
  - now apply tidy_prefix.
  - apply encodable_iff. intros c Hc. apply in_app_or in Hc.
    destruct Hc as [Hc|[<-|[]]]; [|reflexivity].
    apply in_firstn in Hc. rewrite encodable_iff in He. auto.
Qed.

Lemma clean_tidy (L : Z) (x : cell) :
  tidy (clean L x) /\ encodable (clean L x) = true.
Proof.
  destruct x; try (apply truncate_tidy; apply clean_text_tidy).
  split; [exists []; split; [constructor | reflexivity] | reflexivity].
Qed.

(** X4.  Whatever the values and the width, no cell that [print_table] hands
    to the table can break it: the text of a cell holds no line feed, no
    carriage return, no tab or other white space than the plain space, and no
    code point that UTF-8 cannot encode. *)
Theorem table_cells_are_one_line (max_width : Z) (headers : list pystr)
  (rows : list row) (r : list pystr) (s : pystr) :
  In r (rows_ll max_width headers rows) -> In s r ->
  (forall c, In c s -> isspace c = true -> c = SPACE)
  /\ ~ In LF s /\ ~ In CR s /\ ~ In TAB s
  /\ encodable s = true.
Proof.
  intros Hr Hs. unfold rows_ll in Hr.
  apply in_map_iff in Hr. destruct Hr as (r0 & <- & _).
  apply in_map_iff in Hs. destruct Hs as (h & <- & _).
  destruct (clean_tidy max_width (dict_get h r0)) as [Ht He].
  assert (Hsp : forall c, In c (clean max_width (dict_get h r0)) ->
                          isspace c = true -> c = SPACE)
    by (intros c Hc Hi; eapply tidy_space; eauto).
  split; [exact Hsp|].
  repeat split; try assumption; intros H; specialize (Hsp _ H eq_refl); discriminate.
Qed.

Lemma table_cells_are_one_line_witness :
  ~ In LF (clean 24 (dict_get (lit "note") (nth 2 sample_rows []))).
Proof.
  apply (table_cells_are_one_line 24 [lit "id"; lit "note"] sample_rows
           (map (fun h => clean 24 (dict_get h (nth 2 sample_rows [])))
                [lit "id"; lit "note"])).
  - unfold rows_ll. apply in_map_iff. exists (nth 2 sample_rows []).
    split; [reflexivity|]. simpl. auto.
  - simpl. auto.
Defined.

(** ** The cleaning of [print_horizontal] *)

Lemma replace1_removes (old new : char) (s : pystr) :
  old <> new -> ~ In old (replace1 old new s).
Proof.
  intros Hne H. unfold replace1 in H. apply in_map_iff in H.
  destruct H as (c & Hc & _). destruct (N.eqb_spec c old); congruence.
Qed.

Lemma replace1_keeps_out (c old new : char) (s : pystr) :
  c <> new -> ~ In c s -> ~ In c (replace1 old new s).
Proof.
  intros Hne Hs H. unfold replace1 in H. apply in_map_iff in H.
  destruct H as (d & Hd & Hin). destruct (N.eqb_spec d old); [congruence|].
  subst d. contradiction.
Qed.

Lemma cleaned_item_text (item : cell) :
  ~ In LF (py_str (cleaned_item item))
  /\ ~ In CR (py_str (cleaned_item item))
  /\ ~ In TAB (py_str (cleaned_item item)).
Proof.
  assert (Hclean : forall s,
             let t := replace1 TAB SPACE (replace1 CR SPACE (replace1 LF SPACE s)) in
             ~ In LF t /\ ~ In CR t /\ ~ In TAB t).
  { intros s t. unfold t. repeat split.
    - apply replace1_keeps_out; [discriminate|].
      apply replace1_keeps_out; [discriminate|]. apply replace1_removes. discriminate.
    - apply replace1_keeps_out; [discriminate|]. apply replace1_removes. discriminate.
    - apply replace1_removes. discriminate. }
  destruct item as [|z|s|b]; cbn [cleaned_item py_str]; try apply Hclean.
  - repeat split; simpl; intuition discriminate.
  - repeat split; intros H; apply str_int_chars in H; unfold LF, CR, TAB in H; lia.
Qed.

(** X5.  The copy of the rows that [print_horizontal] hands to the backend
    has the shape of the rows, the same [None] and [int] cells, and no cell
    whose text holds a line feed, a carriage return or a tab. *)
Theorem cleaned_results_cannot_break_the_grid (results : list (list cell)) :
  map (@length cell) (cleaned_results results) = map (@length cell) results
  /\ (forall r c, In r (cleaned_results results) -> In c r ->
        ~ In LF (py_str c) /\ ~ In CR (py_str c) /\ ~ In TAB (py_str c))
  /\ (forall c, is_str c = false -> (forall b, c <> CBytes b) -> cleaned_item c = c).
Proof.
  split; [|split].
  - unfold cleaned_results. rewrite map_map. apply map_ext. intros r. apply length_map.
  - intros r c Hr Hc. unfold cleaned_results in Hr.
    apply in_map_iff in Hr. destruct Hr as (r0 & <- & _).
    apply in_map_iff in Hc. destruct Hc as (c0 & <- & _).
    apply cleaned_item_text.
  - intros c Hc Hb. destruct c; try reflexivity; [discriminate | now elim (Hb b)].
Qed.

(** ** The vertical view *)

Lemma max_header_len_ge (headers : list pystr) (h : pystr) :
  In h headers -> len h <= max_header_len headers.
Proof.
  unfold max_header_len. induction headers as [|x hs IH]; [intros []|].
  simpl. intros [->|H]; [lia|]. specialize (IH H). lia.
Qed.

Lemma len_rjust (w : Z) (s : pystr) : len s <= w -> len (rjust w s) = w.
Proof.
  intros H. unfold rjust. rewrite len_app, len_repeat. pose proof (len_nonneg s). lia.
Qed.

(** X6.  [print_vertical] lines the records up: for rows that have a cell
    for every header, it prints an empty line, then for each row its banner
    and one line per column, then the count; in every line of a column the
    header is padded on the left to the length of the longest header, so the
    colons stand in one column. *)
Theorem vertical_view_is_aligned (results : list (list cell)) (headers : list pystr)
  (w : world) :
  Forall (fun r => (length headers <= length r)%nat) results ->
  print_vertical results headers w = Ok tt (with_output w (vertical_view results headers))
  /\ forall h v, In h headers ->
       field_line (max_header_len headers) (h, v)
       = Text (rjust (max_header_len headers) h ++ lit " : " ++ py_str v)
       /\ len (rjust (max_header_len headers) h) = max_header_len headers.
Proof.
  intros Hres. split; [now apply print_vertical_lines|].
  intros h v Hh. split; [reflexivity|].
  apply len_rjust. now apply max_header_len_ge.
Qed.

Lemma vertical_view_is_aligned_witness :
  print_vertical [[CInt 7; CNone]] [lit "id"; lit "note"] (sample_world [])
  = Ok tt (with_output (sample_world [])
             [Text []; Text (banner 0); Text (lit "  id : 7"); Text (lit "note : None");
              Text (rows_returned 1)]).
Proof.
  apply (vertical_view_is_aligned [[CInt 7; CNone]] [lit "id"; lit "note"] (sample_world [])).
  repeat constructor.
Defined.

(** ** Answers and defaults *)

Lemma lstrip_nil_iff (s : pystr) :
  lstrip s = [] <-> forall c, In c s -> isspace c = true.
Proof.
  induction s as [|c s IH]; simpl.
  - split; [intros _ ? [] | reflexivity].
  - destruct (isspace c) eqn:Hc.
    + rewrite IH. split; [intros H d [<-|Hd]; auto | intros H d Hd; auto].
    + split; [discriminate|]. intros H. specialize (H c (or_introl eq_refl)). congruence.
Qed.

Lemma lstrip_head (s : pystr) (c : char) (t : pystr) :
  lstrip s = c :: t -> isspace c = false.
Proof.
  induction s as [|d s IH]; simpl; [discriminate|].
  destruct (isspace d) eqn:Hd; [assumption|]. intros H. inversion H. now subst.
Qed.

Lemma lstrip_suffix (s : pystr) : exists pre, s = pre ++ lstrip s.
Proof.
  induction s as [|c s [pre IH]]; [now exists []|].
  simpl. destruct (isspace c); [|now exists []].
  exists (c :: pre). simpl. now f_equal.
Qed.

Lemma strip_nil_iff (s : pystr) :
  strip s = [] <-> forall c, In c s -> isspace c = true.
Proof.
  unfold strip. split.
  - intros H. apply (proj1 (lstrip_nil_iff s)).
    apply (f_equal (@rev _)) in H. rewrite rev_involutive in H. simpl in H.
    pose proof (proj1 (lstrip_nil_iff _) H) as Hall.
    destruct (lstrip s) as [|c t] eqn:Hl; [reflexivity|].
    pose proof (lstrip_head _ _ _ Hl) as Hc.
    rewrite (Hall c) in Hc; [discriminate|]. apply in_rev. rewrite rev_involutive. now left.
  - intros H. rewrite (proj2 (lstrip_nil_iff s) H). reflexivity.
Qed.

(** X7.  [prompt_with_default]: an answer of white space only, the empty line
    too, gives the default; any other answer is taken without the white space
    around it, and is not empty. *)
Theorem blank_answer_gives_default (p : prompt) (default line : pystr)
  (rest : list pystr) (w : world) :
  stdin w = line :: rest ->
  exists answer,
    prompt_with_default p default w
    = Ok answer {| stdin := rest; stdout := stdout w ++ [Ask p];
                   statements := statements w; files := files w |}
    /\ ((forall c, In c line -> isspace c = true) -> answer = default)
    /\ ((exists c, In c line /\ isspace c = false) ->
        answer = strip line /\ answer <> []).
Proof.
  intros Hin. exists (or_default (strip line) default).
  split; [now apply prompt_with_default_reads|]. split.
  - intros Hblank. rewrite (proj2 (strip_nil_iff line) Hblank). reflexivity.
  - intros (c & Hc & Hns).
    destruct (strip line) as [|d t] eqn:Hs.
    + rewrite (proj1 (strip_nil_iff line) Hs c Hc) in Hns. discriminate.
    + split; [reflexivity | discriminate].
Qed.

Lemma blank_answer_gives_default_witness :
  exists answer,
    prompt_with_default AskCommand (lit "queries.json") (sample_world [lit "  "; lit "x"])
    = Ok answer {| stdin := [lit "x"]; stdout := [Ask AskCommand];
                   statements := []; files := [] |}
    /\ answer = lit "queries.json".
Proof.
  destruct (blank_answer_gives_default AskCommand (lit "queries.json") (lit "  ")
              [lit "x"] (sample_world [lit "  "; lit "x"]) eq_refl)
    as (answer & Hrun & Hblank & _).
  exists answer. split; [exact Hrun|]. apply Hblank.
  intros c [<-|[<-|[]]]; reflexivity.
Defined.

(** ** The failures of [save_csv] *)

Lemma sends_nothing_bind {A B} (m : M A) (k : A -> M B) :
  sends_nothing m -> (forall a, sends_nothing (k a)) -> sends_nothing (bind m k).
Proof.
  intros Hm Hk w. unfold bind. specialize (Hm w).
  destruct (m w) as [a w1|e w1|]; [|assumption|exact I].
  specialize (Hk a w1). destruct (k a w1); [congruence | congruence | exact I].
Qed.

Lemma sends_nothing_try_except {A} (m : M A) (catches : exn -> bool)
  (handler : exn -> M A) :
  sends_nothing m -> (forall e, sends_nothing (handler e)) ->
  sends_nothing (try_except m catches handler).
Proof.
  intros Hm Hh w. unfold try_except. specialize (Hm w).
  destruct (m w) as [a w1|e w1|]; [assumption| |exact I].
  destruct (catches e); [|assumption].
  specialize (Hh e w1). destruct (handler e w1); [congruence | congruence | exact I].
Qed.

Lemma sends_nothing_for_each {A} (l : list A) (f : A -> M unit) :
  (forall x, sends_nothing (f x)) -> sends_nothing (for_each l f).
Proof.
  intros Hf. induction l as [|x l IH]; simpl.
  - intros w. reflexivity.
  - apply sends_nothing_bind; [apply Hf | intros _; exact IH].
Qed.

Lemma sends_nothing_save_csv (E : env) (rows : list row) : sends_nothing (save_csv E rows).
Proof.
  unfold save_csv. destruct rows as [|first more]; [intros w; reflexivity|].
  apply sends_nothing_bind.
  - intros w. unfold prompt_with_default, input, bind, emit, ret. simpl.
    destruct (stdin w); reflexivity.
  - intros path. apply sends_nothing_try_except; [|intros e w; reflexivity].
    apply sends_nothing_bind.
    { intros w. unfold open_w. destruct (can_open E path); reflexivity. }
    intros _. assert (Hrow : forall fs r, sends_nothing (writerow path fs r)).
    { intros fs r w. unfold writerow. destruct (forallb _ r); [|reflexivity].
      unfold fwrite. destruct (encodable _); [|reflexivity].
      destruct (file_content path (files w)) as [[|? ?]|]; reflexivity. }
    apply sends_nothing_bind; [apply Hrow | intros _].
    apply sends_nothing_bind; [|intros _ w; reflexivity].
    apply sends_nothing_for_each. intros r. apply Hrow.
Qed.

(** X8.  [save_csv] keeps its failures to itself: whatever the rows, the file
    system and the name typed, it returns normally, except that the
    [EOFError] of its prompt, at the end of the input, gets out; and it never
    sends a statement to the server. *)
Theorem save_csv_contains_its_failures (E : env) (rows : list row) (w : world) :
  match save_csv E rows w with
  | Ok _ w' => statements w' = statements w
  | Raise e w' =>
      e = EOFError /\ stdin w = [] /\ rows <> []
      /\ statements w' = statements w /\ files w' = files w
  | OutOfFuel => False
  end.
Proof.
  pose proof (sends_nothing_save_csv E rows w) as Hsend.
  pose proof (reads_save_csv E rows w) as Hfuel.
  destruct (save_csv E rows w) as [[] w'|e w'|] eqn:Hrun; [assumption| |contradiction].
  unfold save_csv in Hrun. destruct rows as [|first more]; [discriminate|].
  unfold bind at 1 in Hrun.
  destruct (stdin w) as [|line rest] eqn:Hin.
  - unfold prompt_with_default, input, bind, emit in Hrun. simpl in Hrun.
    rewrite Hin in Hrun. inversion Hrun; subst. simpl.
    repeat split; try reflexivity; try assumption; discriminate.
  - rewrite (prompt_with_default_reads _ _ _ _ _ Hin) in Hrun.
    unfold try_except in Hrun.
    match type of Hrun with
    | match ?m ?w0 with _ => _ end = _ => destruct (m w0); discriminate
    end.
Qed.

Lemma for_each_app {A} (l1 l2 : list A) (f : A -> M unit) (w w1 : world) :
  for_each l1 f w = Ok tt w1 -> for_each (l1 ++ l2) f w = for_each l2 f w1.
Proof.
  revert w. induction l1 as [|x l1 IH]; intros w H.
  - simpl in H. inversion H. reflexivity.
  - simpl in *. apply bind_ok in H. destruct H as ([] & w0 & Hx & Hrest).
    rewrite (bind_of_ok _ _ _ _ _ Hx). now apply IH.
Qed.

Lemma writerow_refuses (path : pystr) (fieldnames : list pystr) (r : row) (k : pystr)
  (w : world) :
  In k (keys r) -> ~ In k fieldnames ->
  writerow path fieldnames r w = Raise ValueError w.
Proof.
  intros Hk Hout. unfold writerow.
  destruct (forallb _ r) eqn:Hall; [|reflexivity].
  rewrite forallb_forall in Hall.
  unfold keys in Hk. apply in_map_iff in Hk. destruct Hk as ([k0 v] & <- & Hkv).
  specialize (Hall _ Hkv). apply existsb_exists in Hall.
  destruct Hall as (h & Hh & Heq). apply str_eqb_eq in Heq. simpl in *. subst h.
  contradiction.
Qed.

(** X9.  A row with a column that the first row does not have stops the
    export: [save_csv] reports the [ValueError] of the writer and returns
    normally, and the file is left with the header record and the records of
    the rows before that one. *)
Theorem export_stops_at_unknown_column (E : env) (first : row) (good : list row)
  (bad : row) (later : list row) (k : pystr) (w : world) (line : pystr)
  (rest : list pystr) :
  let headers := keys first in
  let path := or_default (strip line) (default_name E) in
  NoDup headers ->
  Forall (fun r => keys r = headers) (first :: good) ->
  Forall (fun h => encodable h = true) headers ->
  Forall (fun r => Forall (fun f => encodable f = true) (exported r)) (first :: good) ->
  In k (keys bad) -> ~ In k headers ->
  stdin w = line :: rest ->
  can_open E path = true ->
  exists w',
    save_csv E ((first :: good) ++ bad :: later) w = Ok tt w'
    /\ file_content path (files w')
       = Some (BOM :: concat (map csv_record (export_records headers (first :: good))))
    /\ stdout w' = stdout w ++ [Ask (AskCsvName (default_name E));
                                Note (SaveFailed ValueError)].
Proof.
  intros headers path Hnd Hkeys Hh Henc Hk Hout Hin Hopen.
  change ((first :: good) ++ bad :: later) with (first :: (good ++ bad :: later)).
  unfold save_csv. fold headers.
  rewrite (bind_of_ok _ _ _ _ _ (prompt_with_default_reads _ _ _ _ _ Hin)). fold path.
  set (w1 := {| stdin := rest; stdout := stdout w ++ [Ask (AskCsvName (default_name E))];
                statements := statements w; files := files w |}).
  set (w2 := {| stdin := stdin w1; stdout := stdout w1;
                statements := statements w1; files := (path, []) :: files w1 |}).
  assert (Hopen_w : open_w E path w1 = Ok tt w2)
    by (unfold open_w; rewrite Hopen; reflexivity).
  assert (Hc2 : file_content path (files w2) = Some []) by apply file_content_head.
  destruct (writeheader_appends path [] headers w2 Hc2 Hnd Hh) as (w3 & Hw3 & Hc3 & Hs3).
  destruct (rows_appended path headers (first :: good) Hnd Hkeys Henc BOM
              (csv_record headers) w3 Hc3) as (w4 & Hw4 & Hc4 & Hs4).
  assert (Hbad : writerow path headers (blank_none bad) w4 = Raise ValueError w4).
  { apply (writerow_refuses _ _ _ k); [now rewrite keys_blank_none | assumption]. }
  exists (with_output w4 [Note (SaveFailed ValueError)]).
  destruct Hs3 as (Hs3a & Hs3b & Hs3c), Hs4 as (Hs4a & Hs4b & Hs4c).
  split; [|split].
  - unfold try_except.
    rewrite (bind_of_ok _ _ _ _ _ Hopen_w), (bind_of_ok _ _ _ _ _ Hw3).
    change (first :: good ++ bad :: later) with ((first :: good) ++ bad :: later).
    unfold bind at 1.
    rewrite (for_each_app _ _ _ _ _ Hw4). simpl for_each. unfold bind at 1.
    rewrite Hbad. reflexivity.
  - simpl files. rewrite Hc4. reflexivity.
  - simpl. rewrite Hs4b, Hs3b. simpl. now rewrite <- app_assoc.
Qed.

Lemma export_stops_at_unknown_column_witness :
  exists w',
    save_csv sample_env
      ([[(lit "id", CInt 1)]] ++ [(lit "id", CInt 2); (lit "x", CNone)] :: [[(lit "id", CInt 3)]])
      (sample_world [lit "out.csv"]) = Ok tt w'
    /\ option_map csv_parse (file_content (lit "out.csv") (files w'))
       = Some [[lit "id"]; [lit "1"]].
Proof.
  destruct (export_stops_at_unknown_column sample_env [(lit "id", CInt 1)] []
              [(lit "id", CInt 2); (lit "x", CNone)] [[(lit "id", CInt 3)]] (lit "x")
              (sample_world [lit "out.csv"]) (lit "out.csv") [])
    as (w' & Hrun & Hfile & _).
  - repeat constructor. simpl. tauto.
  - repeat constructor.
  - repeat constructor.
  - repeat constructor.
  - simpl. auto.
  - simpl. intuition discriminate.
  - reflexivity.
  - reflexivity.
  - exists w'. split; [exact Hrun|].
    change (or_default (strip (lit "out.csv")) (default_name sample_env))
      with (lit "out.csv") in Hfile.
    rewrite Hfile. reflexivity.
Defined.

(** ** The lines of a custom statement *)

Lemma readline_reads (line : pystr) (rest : list pystr) (w : world) :
  stdin w = line :: rest ->
  readline w = Ok line {| stdin := rest; stdout := stdout w;
                          statements := statements w; files := files w |}.
Proof. intros H. unfold readline. now rewrite H. Qed.

Lemma read_sql_lines_stops (pre : list pystr) (last : pystr) (rest : list pystr) :
  Forall goes_on pre ->
  strip last = [] \/ ends_statement last = true ->
  forall (fuel : nat) (lines : list pystr) (w : world),
    (length pre < fuel)%nat ->
    stdin w = pre ++ last :: rest ->
    read_sql_lines fuel lines w
    = Ok (lines ++ pre ++ match strip last with [] => [] | _ => [last] end)
         {| stdin := rest; stdout := stdout w;
            statements := statements w; files := files w |}.
Proof.
  intros Hpre Hlast. induction Hpre as [|l pre [Hl1 Hl2] _ IH]; intros fuel lines w Hfuel Hin.
  - destruct fuel as [|fuel]; [simpl in Hfuel; lia|].
    simpl in Hin. simpl read_sql_lines.
    rewrite (bind_of_ok _ _ _ _ _ (readline_reads _ _ _ Hin)).
    destruct (strip last) as [|c t] eqn:Hs.
    + unfold ret. now rewrite app_nil_r.
    + destruct Hlast as [Hb|He]; [discriminate|]. rewrite He. reflexivity.
  - destruct fuel as [|fuel]; [simpl in Hfuel; lia|].
    simpl in Hin. simpl read_sql_lines.
    rewrite (bind_of_ok _ _ _ _ _ (readline_reads _ _ _ Hin)).
    destruct (strip l) as [|c t] eqn:Hs; [contradiction|].
    rewrite Hl2, IH by (simpl in *; (lia || reflexivity)).
    simpl. now rewrite <- app_assoc.
Qed.

(** X10.  The custom entry of the menu reads its statement line by line up to
    the first line that is blank, which it drops, or that ends in a
    semicolon, which it keeps, and leaves the lines after it unread; the
    statement is these lines joined by line feeds, without the white space
    around the whole; when that is empty, it says that nothing was typed and
    no statement is returned. *)
Theorem custom_statement_is_the_lines_typed (pre : list pystr) (last : pystr)
  (rest : list pystr) (w : world) :
  Forall goes_on pre ->
  strip last = [] \/ ends_statement last = true ->
  stdin w = pre ++ last :: rest ->
  let typed := pre ++ match strip last with [] => [] | _ => [last] end in
  let sql := strip (join [LF] typed) in
  let opening := Text ([LF] ++ text "请输入要执行的 SQL（以分号 ; 结尾，空行直接执行）：") in
  read_custom_sql w
  = match sql with
    | [] => Ok None {| stdin := rest;
                       stdout := stdout w ++ [opening; Text (text "未输入任何 SQL。")];
                       statements := statements w; files := files w |}
    | _ => Ok (Some sql) {| stdin := rest; stdout := stdout w ++ [opening];
                            statements := statements w; files := files w |}
    end.
Proof.
  intros Hpre Hlast Hin typed sql opening. subst sql typed. unfold read_custom_sql.
  unfold bind at 1. unfold print. rewrite emit_ok. unfold bind at 1.
  rewrite (read_sql_lines_stops pre last rest Hpre Hlast)
    by (simpl; rewrite ?Hin, ?length_app; simpl; (lia || reflexivity)).
  rewrite app_nil_l.
  match goal with
  | |- context [strip (join [LF] ?t)] => destruct (strip (join [LF] t))
  end; unfold with_output; simpl.
  - unfold bind, ret, emit. simpl. now rewrite <- app_assoc.
  - reflexivity.
Qed.

Lemma custom_statement_is_the_lines_typed_witness :
  read_custom_sql (sample_world [lit "drop"; lit "table t;"; lit "1"])
  = Ok (Some (lit "drop" ++ [LF] ++ lit "table t;"))
       {| stdin := [lit "1"];
          stdout := [Text ([LF] ++ text "请输入要执行的 SQL（以分号 ; 结尾，空行直接执行）：")];
          statements := []; files := [] |}.
Proof.
  apply (custom_statement_is_the_lines_typed [lit "drop"] (lit "table t;") [lit "1"]
           (sample_world [lit "drop"; lit "table t;"; lit "1"])).
  - repeat constructor. discriminate.
  - right. reflexivity.
  - reflexivity.
Defined.

(** ** The menu file *)












(** ** The connection details *)

Lemma input_text_reads (prompt_text line : pystr) (rest : list pystr) (w : world) :
  stdin w = line :: rest ->
  input_text prompt_text w
  = Ok line {| stdin := rest; stdout := stdout w ++ [Text prompt_text];
               statements := statements w; files := files w |}.
Proof.
  intros H. unfold input_text, bind. rewrite emit_ok. unfold readline, with_output.
  cbn [stdin stdout statements files]. now rewrite H.
Qed.

Lemma input_text_at_end (prompt_text : pystr) (w : world) :
  stdin w = [] ->
  input_text prompt_text w = Raise EOFError (with_output w [Text prompt_text]).
Proof.
  intros H. unfold input_text, bind. rewrite emit_ok. unfold readline, with_output.
  cbn [stdin stdout statements files]. now rewrite H.
Qed.

Ltac answer :=
  first
    [ erewrite bind_of_ok by apply emit_ok
    | erewrite bind_of_ok by (apply input_text_reads; reflexivity) ];
  unfold with_output; cbn [stdin stdout statements files].


(** ** The order of the menu *)

Lemma insert_by_perm {A} (leb : A -> A -> bool) (x : A) (l : list A) :
  Permutation (x :: l) (insert_by leb x l).
Proof.
  induction l as [|y l IH]; simpl; [reflexivity|].
  destruct (leb x y); [reflexivity|].
  etransitivity; [apply perm_swap | now apply perm_skip].
Qed.

Lemma sorted_by_perm {A} (leb : A -> A -> bool) (l : list A) :
  Permutation l (sorted_by leb l).
Proof.
  induction l as [|x l IH]; [reflexivity|].
  change (sorted_by leb (x :: l)) with (insert_by leb x (sorted_by leb l)).
  etransitivity; [apply perm_skip, IH | apply insert_by_perm].
Qed.

Lemma insert_by_sorted {A} (R : A -> A -> Prop) (leb : A -> A -> bool) (x : A) (l : list A) :
  (forall a b, leb a b = true -> R a b) ->
  (forall a b, leb a b = false -> R b a) ->
  (forall a b c, R a b -> R b c -> R a c) ->
  StronglySorted R l -> StronglySorted R (insert_by leb x l).
Proof.
  intros Hle Htot Htrans. induction 1 as [|y l Hl IH Hy]; simpl.
  - constructor; constructor.
  - destruct (leb x y) eqn:Hxy.
    + apply SSorted_cons; [apply SSorted_cons; assumption|].
      apply Forall_cons; [now apply Hle|].
      eapply Forall_impl; [|exact Hy]. intros z Hz.
      apply (Htrans x y z); [apply Hle; exact Hxy | exact Hz].
    + apply SSorted_cons; [exact IH|].
      apply (Permutation_Forall (insert_by_perm leb x l)).
      apply Forall_cons; [now apply Htot | exact Hy].
Qed.

Lemma sorted_by_sorted {A} (R : A -> A -> Prop) (leb : A -> A -> bool) (l : list A) :
  (forall a b, leb a b = true -> R a b) ->
  (forall a b, leb a b = false -> R b a) ->
  (forall a b c, R a b -> R b c -> R a c) ->
  StronglySorted R (sorted_by leb l).
Proof.
  intros Hle Htot Htrans. induction l as [|x l IH]; [constructor|].
  change (sorted_by leb (x :: l)) with (insert_by leb x (sorted_by leb l)).
  now apply insert_by_sorted.
Qed.

Lemma str_leb_total (a b : pystr) : str_leb a b = false -> str_leb b a = true.
Proof.
  revert b. induction a as [|x a IH]; intros [|y b]; simpl; try discriminate; auto.
  destruct (N.ltb_spec x y); [discriminate|].
  destruct (N.ltb_spec y x); [reflexivity|]. apply IH.
Qed.

Lemma str_leb_trans (a b c : pystr) :
  str_leb a b = true -> str_leb b c = true -> str_leb a c = true.
Proof.
  revert b c. induction a as [|x a IH]; intros [|y b] [|z c]; simpl; try discriminate; auto.
  destruct (N.ltb_spec x y), (N.ltb_spec y z), (N.ltb_spec x z); try lia; auto;
    destruct (N.ltb_spec y x), (N.ltb_spec z y), (N.ltb_spec z x);
    try lia; try discriminate; auto.
  apply IH.
Qed.

(** X14.  The keys of the menu are shown in order, none lost and none
    added: by the number they denote when every key is a number, so that
    [10] comes after [2], and by the order of strings as soon as one key is
    not a number. *)
Theorem menu_keys_are_sorted (py_int : pystr -> option Z) (keys : list pystr) :
  Permutation keys (sorted_keys py_int keys)
  /\ ((forall k, In k keys -> py_int k <> None) ->
      StronglySorted (fun a b => int_or_zero py_int a <= int_or_zero py_int b)
        (sorted_keys py_int keys))
  /\ ((exists k, In k keys /\ py_int k = None) ->
      StronglySorted (fun a b => str_leb a b = true) (sorted_keys py_int keys)).
Proof.
  unfold sorted_keys.
  destruct (forallb _ keys) eqn:Hall.
  - split; [apply sorted_by_perm|]. split.
    + intros _. apply sorted_by_sorted.
      * intros a b H. now apply Z.leb_le.
      * intros a b H. apply Z.leb_gt in H. lia.
      * intros a b c. lia.
    + intros (k & Hk & Hnone). exfalso.
      rewrite forallb_forall in Hall. specialize (Hall k Hk). now rewrite Hnone in Hall.
  - split; [apply sorted_by_perm|]. split.
    + intros Hnum. exfalso.
      assert (Htrue : forallb (fun k => match py_int k with Some _ => true | None => false end)
                        keys = true).
      { apply forallb_forall. intros k Hk. specialize (Hnum k Hk).
        destruct (py_int k); [reflexivity | contradiction]. }
      congruence.
    + intros _. apply sorted_by_sorted.
      * auto.
      * apply str_leb_total.
      * apply str_leb_trans.
Qed.

(** ** One statement for one query *)



(** ** The character set of the connection *)

(** X16.  [enforce_utf8] never fails and reads nothing: the first statement
    is sent, the second only when the first succeeded, and the error of the
    one that fails is shown in a warning instead of being raised; when both
    succeed nothing is printed. *)
Theorem enforce_utf8_never_fails (E : env) (exn_text : exn -> pystr) (w : world) :
  let names := lit "SET NAMES utf8mb4 COLLATE utf8mb4_general_ci;" in
  let results := lit "SET character_set_results = utf8mb4;" in
  let warning := fun e => Text (text "[WARN] 设置 UTF-8 失败（可忽略）：" ++ exn_text e) in
  exists w',
    enforce_utf8 E exn_text w = Ok tt w'
    /\ stdin w' = stdin w /\ files w' = files w
    /\ match server E (statements w) names with
       | ExecuteRaises e =>
           statements w' = statements w ++ [names] /\ stdout w' = stdout w ++ [warning e]
       | Executed _ _ =>
           statements w' = statements w ++ [names; results]
           /\ match server E (statements w ++ [names]) results with
              | ExecuteRaises e => stdout w' = stdout w ++ [warning e]
              | Executed _ _ => stdout w' = stdout w
              end
       end.
Proof.
  intros names results warning.
  unfold enforce_utf8, try_except, bind, execute. fold names. fold results.
  cbn [stdin stdout statements files].
  destruct (server E (statements w) names) as [e|rowcount f].
  - eexists. split; [reflexivity|]. cbn. repeat split.
  - cbn [stdin stdout statements files].
    destruct (server E (statements w ++ [names]) results) as [e|rowcount' f'].
    + eexists. split; [reflexivity|]. cbn [stdin stdout statements files].
      rewrite <- app_assoc. repeat split.
    + eexists. split; [reflexivity|]. cbn [stdin stdout statements files].
      rewrite <- app_assoc. repeat split.
Qed.
